(** * Star Battle solver (pytudes, StarBattle.ipynb): model and properties

    The notebook solves Star Battle puzzles by depth-first search with
    constraint propagation.  This file embeds its functions ([make_board],
    [neighbors], [put_star], [put_blank], [search], [solve],
    [initial_state], [is_solution]) and proves properties of them.

    Conventions of the embedding.
    - A Python [int] is a [Z]; a Python [set] of ints is a [gset Z]; a list
      is a [list]; the dict [units_for] is a [gmap].
    - [put_star] and [put_blank] mutate the state they are given and return
      either that state or [None].  They are functions from a state to an
      [outcome] and the state as it is left behind.
    - An exception is an outcome of its own ([Raise]).
    - The order in which Python iterates over a set is fixed by the
      interpreter, not by the program.  The model takes it as a parameter
      ([SetOrder]), a function of the elements of the set; every property
      below holds for every order.
    - Recursion is bounded by a fuel argument that counts the levels of
      calls still allowed below the current one: the first call is at
      level zero.  [search] hands its own fuel to [put_star]. *)

From Stdlib Require Import ZArith Lia Ascii String.
From stdpp Require Import base tactics option list list_numbers sorting
  sets fin_sets gmap strings.

Local Open Scope Z_scope.
#[local] Set Warnings "-clear-no-such-hyp".

(** ** Exceptions and results *)

Inductive exn := KeyError | ZeroDivisionError | StopIteration | AssertionError.

(** The result of a function that returns a value. *)
Inductive result (A : Type) :=
  | Return (a : A)
  | Raise (e : exn)
  | OutOfFuel.
Arguments Return {A} a.
Arguments Raise {A} e.
Arguments OutOfFuel {A}.

(** The result of [put_star] and [put_blank]: [Success] when the call
    returns the state, [Failure] when it returns [None]. *)
Inductive outcome :=
  | Success
  | Failure
  | Raised (e : exn)
  | NoFuel.

(** ** The data model *)

Module Board.
Record t := mk {
  N : Z;
  S : Z;
  units : list (gset Z);
  units_for : gmap Z (list (gset Z));
  pic : list ascii
}.
End Board.

Module State.
Record t := mk {
  units : list (gset Z);
  stars : gset Z;
  unknowns : gset Z
}.
End State.

(** ** Iteration order of sets

    [set_iter X] is the order in which a [for] loop visits the set of ints
    [X]; [str_set_iter s] is the order in which it visits [set(s)] for a
    string [s].  Both enumerate every element once. *)

Class SetOrder := {
  set_iter : gset Z → list Z;
  set_iter_perm : ∀ X, set_iter X ≡ₚ elements X;
  str_set_iter : list ascii → list ascii;
  str_set_iter_NoDup : ∀ s, NoDup (str_set_iter s);
  str_set_iter_elem : ∀ s c, c ∈ str_set_iter s ↔ c ∈ s
}.

(** Ascending order of ints, first occurrence order of characters. *)
Program Definition ascending_order : SetOrder := {|
  set_iter X := merge_sort Z.le (elements X);
  str_set_iter s := remove_dups s
|}.
Next Obligation. intros X. apply merge_sort_Permutation. Qed.
Next Obligation. intros s. apply NoDup_remove_dups. Qed.
Next Obligation. intros s c. apply elem_of_remove_dups. Qed.

(** Order by slot in a table of eight slots: CPython keeps a small set of
    ints in such a table, the int [i] in slot [i mod 8], and visits the
    slots in turn.  For a set of at most four non-negative ints with
    different residues this is the order CPython iterates in. *)
Definition slot_le (x y : Z) : Prop := x mod 8 ≤ y mod 8.
#[local] Instance slot_le_dec : RelDecision slot_le.
Proof. intros x y. unfold slot_le. apply _. Defined.


(** ** The functions of the notebook *)

Section Solver.
Context {order : SetOrder}.

(** [range(0, n)] *)
Definition range (n : Z) : list Z := seqZ 0 n.

(** [indexes(sequence, item)]: all indexes in sequence where item appears. *)
Definition indexes (sequence : list ascii) (item : ascii) : gset Z :=
  list_to_set
    (filter (λ i, sequence !! Z.to_nat i = Some item)
            (range (Z.of_nat (length sequence)))).

(** The characters [str.split()] treats as whitespace, among the first 256
    code points. *)
Definition is_space (a : ascii) : bool :=
  let n := Z.of_nat (nat_of_ascii a) in
  ((9 <=? n) && (n <=? 13)) || ((28 <=? n) && (n <=? 32))
  || (n =? 133) || (n =? 160).

(** [''.join(picture.split())]: the picture without its whitespace. *)
Definition without_whitespace (picture : string) : list ascii :=
  filter (λ a, is_space a = false) (list_ascii_of_string picture).

(** [make_board(S, picture)].  [int(len(pic) ** 0.5)] is the integer square
    root of the length: the float square root of an int below 2^52 is exact
    on perfect squares and truncates to the floor otherwise. *)
Definition make_board (S : Z) (picture : string) : result Board.t :=
  let pic := without_whitespace picture in
  let N := Z.sqrt (Z.of_nat (length pic)) in
  if decide (Z.of_nat (length pic) = N * N) then
    let side := range N in
    let cols := (λ c, list_to_set ((λ r, N * r + c) <$> side)) <$> side in
    let rows := (λ r, list_to_set ((λ c, N * r + c) <$> side)) <$> side in
    let boxes := indexes pic <$> str_set_iter pic in
    let units : list (gset Z) := cols ++ rows ++ boxes in
    let units_for : gmap Z (list (gset Z)) :=
      list_to_map ((λ c, (c, filter (λ u, c ∈ u) units)) <$> range (N * N)) in
    Return (Board.mk N S units units_for pic)
  else Raise AssertionError.

Definition count_stars (unit : gset Z) (state : State.t) : Z :=
  Z.of_nat (size (unit ∩ State.stars state)).

(** [neighbors(cell, N)] for [N] other than zero; with [N = 0] Python
    raises [ZeroDivisionError] at [cell % N], which the callers model. *)
Definition neighbors (cell N : Z) : gset Z :=
  let dxs := [0; if decide (cell mod N ≠ N - 1) then 1 else 0;
                 if decide (cell mod N ≠ 0) then -1 else 0] in
  let dys := [0; if decide (cell + N < N ^ 2) then N else 0;
                 if decide (cell >= N) then - N else 0] in
  list_to_set
    (dy ← dys; dx ← dxs;
     if decide (dx ≠ 0 ∨ dy ≠ 0) then [cell + dx + dy] else []).

(** A loop that runs [f] on each element in turn, on the state left by the
    one before, and stops at the first that does not succeed: the
    [for ...: if not ...: return None] and [all(... for ...)] of the
    source. *)
Fixpoint each {A} (f : A → State.t → outcome * State.t)
    (l : list A) (state : State.t) : outcome * State.t :=
  match l with
  | [] => (Success, state)
  | x :: l' =>
      match f x state with
      | (Success, state') => each f l' state'
      | stop => stop
      end
  end.

(** [put_star], with its calls of [put_blank] left open. *)
Definition put_star_with (put_blank : Z → State.t → outcome * State.t)
    (cell : Z) (board : Board.t) (state : State.t) : outcome * State.t :=
  if decide (cell ∈ State.stars state) then (Success, state)
  else if decide (cell ∈ State.unknowns state) then
    let state := State.mk (State.units state)
                          ({[cell]} ∪ State.stars state)
                          (State.unknowns state ∖ {[cell]}) in
    match Board.units_for board !! cell with
    | None => (Raised KeyError, state)
    | Some us =>
        if existsb (λ unit, Board.S board <? count_stars unit state) us
        then (Failure, state)
        else if decide (Board.N board = 0) then (Raised ZeroDivisionError, state)
        else each (λ c state,
                     if decide (c ∈ State.stars state) then (Failure, state)
                     else put_blank c state)
                  (set_iter (neighbors cell (Board.N board))) state
    end
  else (Raised KeyError, state).

(** [put_blank], with its calls of [put_star] left open. *)
Definition put_blank_with (put_star : Z → State.t → outcome * State.t)
    (cell : Z) (board : Board.t) (state : State.t) : outcome * State.t :=
  if decide (cell ∈ State.unknowns state) then
    let state := State.mk (State.units state) (State.stars state)
                          (State.unknowns state ∖ {[cell]}) in
    match Board.units_for board !! cell with
    | None => (Raised KeyError, state)
    | Some us =>
        each (λ unit state,
                let s := count_stars unit state in
                let unknowns := unit ∩ State.unknowns state in
                if decide (s + Z.of_nat (size unknowns) < Board.S board)
                then (Failure, state)
                else if decide (s + Z.of_nat (size unknowns) = Board.S board)
                then each put_star (set_iter unknowns) state
                else (Success, state))
             us state
    end
  else (Success, state).

(** A call for which no fuel is left. *)
Definition no_fuel (c : Z) (state : State.t) : outcome * State.t :=
  (NoFuel, state).

(** The two functions, mutually recursive.  [fuel] is the number of levels
    of calls allowed below this one. *)
Fixpoint put_star (fuel : nat) (cell : Z) (board : Board.t) (state : State.t)
    {struct fuel} : outcome * State.t :=
  put_star_with
    (match fuel with
     | O => no_fuel
     | Datatypes.S f => λ c st, put_blank f c board st
     end) cell board state
with put_blank (fuel : nat) (cell : Z) (board : Board.t) (state : State.t)
    {struct fuel} : outcome * State.t :=
  put_blank_with
    (match fuel with
     | O => no_fuel
     | Datatypes.S f => λ c st, put_star f c board st
     end) cell board state.

Definition copy_state (s : State.t) : State.t :=
  State.mk (State.units s) (State.stars s) (State.unknowns s).

(** [sorted(units, key=len)]: Python's sort is stable, and so is this
    insertion sort. *)
Fixpoint insert_by_len (u : gset Z) (l : list (gset Z)) : list (gset Z) :=
  match l with
  | [] => [u]
  | v :: l' =>
      if decide (size u ≤ size v)%nat then u :: v :: l'
      else v :: insert_by_len u l'
  end.

Definition sorted_by_len (l : list (gset Z)) : list (gset Z) :=
  foldr insert_by_len [] l.

Definition initial_state (board : Board.t) : State.t :=
  State.mk (sorted_by_len (Board.units board)) ∅
           (list_to_set (range (Board.N board ^ 2))).

(** The [while] loop of [search]: discard the filled units at the front. *)
Fixpoint discard_filled (board : Board.t) (stars : gset Z)
    (us : list (gset Z)) : list (gset Z) :=
  match us with
  | [] => []
  | u :: us' =>
      if decide (Z.of_nat (size (u ∩ stars)) = Board.S board)
      then discard_filled board stars us'
      else us
  end.

(** A [for] loop in a generator: the values yielded by each round in turn,
    up to the first round that does not end normally. *)
Fixpoint yield_from_each {A B} (f : A → list B * result unit) (l : list A)
    : list B * result unit :=
  match l with
  | [] => ([], Return ())
  | x :: l' =>
      match f x with
      | (ys, Return _) =>
          let (zs, r) := yield_from_each f l' in (ys ++ zs, r)
      | stop => stop
      end
  end.

(** One round of the [for] loop of [search]: the guess of a star in [c],
    with the recursive call left open. *)
Definition guess (search : State.t → list State.t * result unit)
    (put_star : Z → State.t → outcome * State.t)
    (state : State.t) (c : Z) : list State.t * result unit :=
  match put_star c (copy_state state) with
  | (Success, guess_state) => search guess_state
  | (Failure, _) => ([], Return ())
  | (Raised e, _) => ([], Raise e)
  | (NoFuel, _) => ([], OutOfFuel)
  end.

(** [search], with its recursive call left open: the states yielded, and
    how the generator ends. *)
Definition search_with (search : State.t → list State.t * result unit)
    (put_star : Z → State.t → outcome * State.t)
    (board : Board.t) (state : State.t) : list State.t * result unit :=
  let state := State.mk
    (discard_filled board (State.stars state) (State.units state))
    (State.stars state) (State.unknowns state) in
  match State.units state with
  | [] => ([state], Return ())
  | u :: _ =>
      yield_from_each (guess search put_star state)
                      (set_iter (u ∩ State.unknowns state))
  end.

(** [search(board, state)] *)
Fixpoint search (fuel : nat) (board : Board.t) (state : State.t)
    {struct fuel} : list State.t * result unit :=
  search_with
    (match fuel with
     | O => λ _, ([], OutOfFuel)
     | Datatypes.S f => search f board
     end)
    (λ c st, put_star fuel c board st) board state.

(** [solve(board)]: [next] takes the first state yielded and raises
    [StopIteration] when there is none.  What [print_board] prints is not
    modelled. *)
Definition solve (fuel : nat) (board : Board.t) : result (gset Z) :=
  match search fuel board (initial_state board) with
  | (state :: _, _) => Return (State.stars state)
  | ([], Return _) => Raise StopIteration
  | ([], Raise e) => Raise e
  | ([], OutOfFuel) => OutOfFuel
  end.

(** [is_solution(board, stars)] *)
Definition is_solution (board : Board.t) (stars : gset Z) : result bool :=
  if forallb (λ unit, bool_decide (Z.of_nat (size (stars ∩ unit)) = Board.S board))
             (Board.units board)
  then
    if decide (stars = ∅) then Return true
    else if decide (Board.N board = 0) then Raise ZeroDivisionError
    else Return (bool_decide
           (set_Forall (λ c1, set_Forall (λ c2, c1 ∉ neighbors c2 (Board.N board))
                                         stars) stars))
  else Return false.


End Solver.

(** ** Printing *)

Section Printing.
Context {order : SetOrder}.

(** [sep.join(chars)] for a sequence of one-character strings. *)
Fixpoint join (sep : ascii) (chars : list ascii) : list ascii :=
  match chars with
  | [] => []
  | [ch] => [ch]
  | ch :: rest => ch :: sep :: join sep rest
  end.

(** [chars[a:b]] for bounds that are not negative. *)
Definition slice {A} (chars : list A) (a b : Z) : list A :=
  drop (Z.to_nat a) (take (Z.to_nat b) chars).

(** [row(chars, i)] of [print_board]. *)
Definition row (N : Z) (chars : list ascii) (i : Z) : list ascii :=
  join " " (slice chars (i * N) ((i + 1) * N)).

(** [filled] of [print_board]: the picture with a star in each cell of
    [stars]. *)
Definition filled (pic : list ascii) (stars : gset Z) : list ascii :=
  imap (λ c ch, if decide (Z.of_nat c ∈ stars) then "*"%char else ch) pic.

(** [print(a, b, c)]: one line, the arguments separated by a space. *)
Definition print3 (a b c : list ascii) : list ascii :=
  a ++ " "%char :: b ++ " "%char :: c.

(** [print_board(board, stars)]: the lines printed, and how the call ends. *)
Definition print_board (board : Board.t) (stars : gset Z)
    : list (list ascii) * result unit :=
  let N := Board.N board in
  let filled := filled (Board.pic board) stars in
  let lines :=
    (λ i, print3 (row N (Board.pic board) i)
                 (replicate (Z.to_nat N) " "%char)
                 (row N filled i)) <$> range N in
  match is_solution board stars with
  | Return b =>
      (lines ++ [list_ascii_of_string
                   (if b then "Valid solution" else "Invalid solution")],
       Return ())
  | Raise e => (lines, Raise e)
  | OutOfFuel => (lines, OutOfFuel)
  end.

(** [solve(board)], with the lines it prints. *)
Definition solve_output (fuel : nat) (board : Board.t)
    : list (list ascii) * result (gset Z) :=
  match search fuel board (initial_state board) with
  | (state :: _, _) =>
      let stars := State.stars state in
      match print_board board stars with
      | (out, Return _) => (out, Return stars)
      | (out, Raise e) => (out, Raise e)
      | (out, OutOfFuel) => (out, OutOfFuel)
      end
  | ([], Return _) => ([], Raise StopIteration)
  | ([], Raise e) => ([], Raise e)
  | ([], OutOfFuel) => ([], OutOfFuel)
  end.

End Printing.

(** ** Example boards *)

(** The board [make_board] returns, or an empty board when it raises. *)
Definition board_of (r : result Board.t) : Board.t :=
  match r with
  | Return b => b
  | _ => Board.mk 0 0 [] ∅ []
  end.

(** The 5×5 board of the notebook. *)
Definition board5x5_picture : string :=
  ", + ' ' '
   , + : : '
   , + : : .
   , . . . .
   , . . . .".

Definition board5x5 : Board.t :=
  board_of (@make_board ascending_order 1 board5x5_picture).

(** One cell and two stars asked of it: no placement. *)
Definition board_one_cell : Board.t :=
  board_of (@make_board ascending_order 2 "a").

(** The state [put_star(0)] leaves on it. *)
Definition state_one_star : State.t :=
  State.mk (State.units (@initial_state board_one_cell)) {[0]} ∅.

(** One cell and no star asked of it. *)
Definition board_no_star : Board.t :=
  board_of (@make_board ascending_order 0 "a").

(** The state [put_blank(0)] leaves on it: its cell a confirmed blank. *)
Definition state_no_unknown : State.t :=
  State.mk (State.units (@initial_state board_no_star)) ∅ ∅.

(** A 2×2 board of two boxes, the rows. *)
Definition board2x2 : Board.t :=
  board_of (@make_board ascending_order 1 "aa bb").


(** A 2×2 board of four boxes. *)
Definition board2x2_boxes : Board.t :=
  board_of (@make_board ascending_order 1 "ab cd").

(** An 8×8 board with two stars per unit: seven boxes of two cells and one
    box of all the others. *)
Definition board8x8_picture : string :=
  "........
   .....a.a
   .b.b....
   .....c.c
   d.d.....
   ....e.e.
   f.f.....
   ....g.g.".

Definition board8x8 : Board.t :=
  board_of (@make_board ascending_order 2 board8x8_picture).

Definition placement8x8 : gset Z :=
  list_to_set [1; 3; 13; 15; 17; 19; 29; 31; 32; 34; 44; 46; 48; 50; 60; 62].


(** ** Properties *)

Section Properties.
Context {order : SetOrder}.

(** ** Relations between the state before and after a call *)

(** [evolves st st']: what any run of the propagation can do to a state.
    The pending units stay, stars are only added, unknowns only removed,
    and a new star was an unknown. *)
Definition evolves (st st' : State.t) : Prop :=
  State.units st' = State.units st
  ∧ State.stars st ⊆ State.stars st'
  ∧ State.unknowns st' ⊆ State.unknowns st
  ∧ ∀ c, c ∈ State.stars st' → c ∉ State.stars st →
         c ∈ State.unknowns st ∧ c ∉ State.unknowns st'.

(** A cell that is confirmed blank. *)
Definition blank (c : Z) (st : State.t) : Prop :=
  (c ∉ State.stars st) ∧ (c ∉ State.unknowns st).

(** All neighbours of [c] are confirmed blank. *)
Definition closed (N c : Z) (st : State.t) : Prop :=
  ∀ n, n ∈ neighbors c N → blank n st.

(** Stars plus unknowns of a unit: the stars it can still reach. *)
Definition slack (unit : gset Z) (st : State.t) : Z :=
  count_stars unit st + Z.of_nat (size (unit ∩ State.unknowns st)).

(** The quota of a unit in a state. *)
Definition quota (board : Board.t) (unit : gset Z) (st : State.t) : Prop :=
  count_stars unit st ≤ Board.S board ∧ Board.S board ≤ slack unit st.

(** Every unit either meets a bound after the call or has not moved. *)
Definition quota_kept (board : Board.t) (st st' : State.t) : Prop :=
  ∀ U, U ∈ Board.units board →
    (count_stars U st' ≤ Board.S board ∨ count_stars U st' = count_stars U st)
    ∧ (Board.S board ≤ slack U st' ∨ slack U st' = slack U st).

(** Every star added by the call has all its neighbours blank. *)
Definition new_stars_closed (board : Board.t) (st st' : State.t) : Prop :=
  ∀ c, c ∈ State.stars st' → c ∉ State.stars st → closed (Board.N board) c st'.

(** The cells of a board: [range(N * N)]. *)
Definition cells (board : Board.t) : gset Z :=
  list_to_set (range (Board.N board * Board.N board)).

(** What [make_board] guarantees of a board. *)
Record board_wf (board : Board.t) : Prop := {
  wf_N : 0 ≤ Board.N board;
  wf_dom : ∀ c, is_Some (Board.units_for board !! c) ↔ c ∈ cells board;
  wf_units_for : ∀ c us, Board.units_for board !! c = Some us →
      ∀ U, U ∈ us ↔ (U ∈ Board.units board ∧ c ∈ U);
  wf_cover : ∀ c, c ∈ cells board → ∃ U, U ∈ Board.units board ∧ c ∈ U
}.

(** A state of the search: stars and unknowns are cells, and apart. *)
Record state_wf (board : Board.t) (st : State.t) : Prop := {
  wf_stars : State.stars st ⊆ cells board;
  wf_unknowns : State.unknowns st ⊆ cells board;
  wf_disjoint : State.stars st ## State.unknowns st
}.

(** A placement: a set of cells that [is_solution] accepts. *)
Definition valid_placement (board : Board.t) (X : gset Z) : Prop :=
  X ⊆ cells board ∧ is_solution board X = Return true.

(** A state that can still grow into the placement [X]. *)
Definition consistent (X : gset Z) (st : State.t) : Prop :=
  State.stars st ⊆ X ∧ X ⊆ State.stars st ∪ State.unknowns st.

(** The cells [search] guesses at, in the order it tries them. *)
Definition candidates (board : Board.t) (state : State.t) : list Z :=
  match discard_filled board (State.stars state) (State.units state) with
  | [] => []
  | u :: _ => set_iter (u ∩ State.unknowns state)
  end.

(** ** General facts *)

#[local] Instance evolves_preorder : PreOrder evolves.
Proof.
  split.
  - intros st. unfold evolves. naive_solver.
  - intros a b c (Hu1 & Hs1 & Hk1 & Hn1) (Hu2 & Hs2 & Hk2 & Hn2).
    split; [congruence|]. split; [set_solver|]. split; [set_solver|].
    intros x Hx Hnx. destruct (decide (x ∈ State.stars b)) as [Hb|Hb].
    + destruct (Hn1 x Hb Hnx). set_solver.
    + destruct (Hn2 x Hx Hb). set_solver.
Qed.

Lemma each_rel {A} (R : relation State.t) `{!PreOrder R}
    (f : A → State.t → outcome * State.t) l st :
  (∀ x st, R st (f x st).2) → R st (each f l st).2.
Proof.
  intros Hf. revert st. induction l as [|x l IH]; intros st; simpl.
  - reflexivity.
  - specialize (Hf x st). destruct (f x st) as [[] st']; simpl in *; try done.
    etrans; [exact Hf|apply IH].
Qed.

Lemma each_evolves {A} (f : A → State.t → outcome * State.t) l st o st' :
  (∀ x st, evolves st (f x st).2) → each f l st = (o, st') → evolves st st'.
Proof.
  intros Hf He. pose proof (each_rel evolves f l st Hf) as H.
  by rewrite He in H.
Qed.

Lemma each_success_inv {A} (f : A → State.t → outcome * State.t) x l st st' :
  each f (x :: l) st = (Success, st') →
  ∃ mid, f x st = (Success, mid) ∧ each f l mid = (Success, st').
Proof.
  simpl. destruct (f x st) as [[] mid] eqn:E; try discriminate. eauto.
Qed.

Lemma put_star_with_evolves blank cell board st :
  (∀ c st, evolves st (blank c st).2) →
  evolves st (put_star_with blank cell board st).2.
Proof.
  intros Hb. unfold put_star_with.
  case_decide; [reflexivity|]. case_decide; [|reflexivity].
  set (st1 := State.mk _ _ _).
  assert (evolves st st1) as H1.
  { unfold evolves, st1; simpl. set_solver. }
  destruct (Board.units_for board !! cell) as [us|]; [|done].
  destruct (existsb _ us); [done|]. case_decide; [done|].
  etrans; [exact H1|]. apply each_rel; [apply _|].
  intros c st2. case_decide; [reflexivity|apply Hb].
Qed.

Lemma put_blank_with_evolves star cell board st :
  (∀ c st, evolves st (star c st).2) →
  evolves st (put_blank_with star cell board st).2.
Proof.
  intros Hs. unfold put_blank_with.
  case_decide; [|reflexivity].
  set (st1 := State.mk _ _ _).
  assert (evolves st st1) as H1.
  { unfold evolves, st1; simpl. set_solver. }
  destruct (Board.units_for board !! cell) as [us|]; [|done].
  etrans; [exact H1|]. apply each_rel; [apply _|].
  intros U st2. simpl. case_decide; [reflexivity|].
  case_decide; [|reflexivity]. apply each_rel; [apply _|done].
Qed.

Lemma no_fuel_evolves c st : evolves st (no_fuel c st).2.
Proof. reflexivity. Qed.

Lemma put_evolves fuel board :
  (∀ cell st, evolves st (put_star fuel cell board st).2)
  ∧ (∀ cell st, evolves st (put_blank fuel cell board st).2).
Proof.
  induction fuel as [|f [IHs IHb]]; split; intros cell st; simpl.
  - apply put_star_with_evolves, no_fuel_evolves.
  - apply put_blank_with_evolves, no_fuel_evolves.
  - apply put_star_with_evolves. intros c st0. apply IHb.
  - apply put_blank_with_evolves. intros c st0. apply IHs.
Qed.

(** ** What a successful propagation establishes *)

(** The three facts together; they compose along a run. *)
Definition propagates (board : Board.t) (st st' : State.t) : Prop :=
  evolves st st' ∧ new_stars_closed board st st' ∧ quota_kept board st st'.

Lemma blank_evolves c st st' : blank c st → evolves st st' → blank c st'.
Proof.
  intros [Hs Hk] (_ & _ & Hk' & Hn). split; [|set_solver].
  intros Hc. destruct (Hn c Hc Hs). done.
Qed.

Lemma closed_evolves N c st st' :
  closed N c st → evolves st st' → closed N c st'.
Proof. intros Hc He n Hn. eapply blank_evolves; eauto. Qed.

#[local] Instance quota_kept_preorder board : PreOrder (quota_kept board).
Proof.
  split.
  - intros st U HU. auto.
  - intros a b c H1 H2 U HU.
    destruct (H1 U HU) as [Hc1 Hs1], (H2 U HU) as [Hc2 Hs2]. split.
    + destruct Hc2 as [?| ->]; [by left|exact Hc1].
    + destruct Hs2 as [?| ->]; [by left|exact Hs1].
Qed.

#[local] Instance propagates_preorder board : PreOrder (propagates board).
Proof.
  split.
  - intros st. split; [reflexivity|]. split; [|reflexivity].
    intros c ??. done.
  - intros a b c (He1 & Hc1 & Hq1) (He2 & Hc2 & Hq2).
    split; [by etrans|]. split; [|by etrans].
    intros x Hx Hnx. destruct (decide (x ∈ State.stars b)) as [Hb|Hb].
    + eapply closed_evolves; eauto.
    + by apply Hc2.
Qed.

Lemma each_success_rel {A} (R : relation State.t) `{!PreOrder R}
    (f : A → State.t → outcome * State.t) l st st' :
  (∀ x st st', x ∈ l → f x st = (Success, st') → R st st') →
  each f l st = (Success, st') → R st st'.
Proof.
  revert st. induction l as [|x l IH]; intros st Hf He.
  - simpl in He. by simplify_eq.
  - apply each_success_inv in He as (mid & Hx & He).
    etrans; [eapply Hf; [left|exact Hx]|].
    apply IH; [|done]. intros y ?? Hy. apply Hf. by right.
Qed.

(** Counting after a cell has moved. *)
Lemma size_inter_add (U X : gset Z) c :
  c ∉ X →
  (size (U ∩ ({[c]} ∪ X)) = (if decide (c ∈ U) then 1 else 0) + size (U ∩ X))%nat.
Proof.
  intros Hc. case_decide.
  - replace (U ∩ ({[c]} ∪ X)) with ({[c]} ∪ U ∩ X) by set_solver.
    rewrite size_union by set_solver. by rewrite size_singleton.
  - simpl. f_equal. set_solver.
Qed.

Lemma size_inter_remove (U X : gset Z) c :
  c ∈ X →
  (size (U ∩ X) = (if decide (c ∈ U) then 1 else 0) + size (U ∩ (X ∖ {[c]})))%nat.
Proof.
  intros Hc. case_decide.
  - replace (U ∩ X) with ({[c]} ∪ U ∩ (X ∖ {[c]})).
    + rewrite size_union by set_solver. by rewrite size_singleton.
    + apply set_eq. intros x. destruct (decide (x = c)); set_solver.
  - simpl. f_equal. set_solver.
Qed.

Lemma slack_star_moved U units stars unknowns c :
  c ∉ stars → c ∈ unknowns →
  slack U (State.mk units ({[c]} ∪ stars) (unknowns ∖ {[c]}))
  = slack U (State.mk units stars unknowns).
Proof.
  intros Hs Hk. unfold slack, count_stars; simpl.
  rewrite (size_inter_add U stars c Hs), (size_inter_remove U unknowns c Hk).
  case_decide; lia.
Qed.

(** Loops that keep an invariant. *)
Definition is_raised (o : outcome) : Prop :=
  match o with Raised _ => True | _ => False end.

Ltac ends := simpl; first [done | tauto | by intros [] ].

Lemma each_inv {A} (Inv : State.t → Prop) (Bad : outcome → Prop)
    (f : A → State.t → outcome * State.t) l st :
  ¬ Bad Success → Inv st →
  (∀ x st, x ∈ l → Inv st → ¬ Bad (f x st).1) →
  (∀ x st st', x ∈ l → Inv st → f x st = (Success, st') → Inv st') →
  ¬ Bad (each f l st).1.
Proof.
  intros HS. revert st. induction l as [|x l IH]; intros st Hst Hbad Hpres.
  - done.
  - simpl. pose proof (Hbad x st (list_elem_of_here _ _) Hst) as Hx.
    pose proof (Hpres x st) as Hp.
    destruct (f x st) as [[] mid]; simpl in *; try done.
    apply IH.
    + apply Hp; [left|done|done].
    + intros y sy Hy. apply Hbad. by right.
    + intros y sy sy' Hy. apply Hpres. by right.
Qed.

Lemma each_inv_success {A} (Inv : State.t → Prop)
    (f : A → State.t → outcome * State.t) l st st' :
  Inv st →
  (∀ x st st', x ∈ l → Inv st → f x st = (Success, st') → Inv st') →
  each f l st = (Success, st') → Inv st'.
Proof.
  revert st. induction l as [|x l IH]; intros st Hst Hpres He.
  - simpl in He. by simplify_eq.
  - apply each_success_inv in He as (mid & Hx & He).
    eapply IH; [|intros y sy sy' Hy; apply Hpres; by right|exact He].
    eapply Hpres; [left|done|done].
Qed.

Lemma evolves_support st st' :
  evolves st st' →
  State.stars st' ∪ State.unknowns st' ⊆ State.stars st ∪ State.unknowns st.
Proof.
  intros (_ & Hs & Hk & Hn) x Hx. apply elem_of_union in Hx as [Hx|Hx].
  - destruct (decide (x ∈ State.stars st)); [set_solver|].
    destruct (Hn x Hx); set_solver.
  - set_solver.
Qed.

Lemma evolves_disjoint st st' :
  evolves st st' → State.stars st ## State.unknowns st →
  State.stars st' ## State.unknowns st'.
Proof.
  intros (_ & Hs & Hk & Hn) Hd x Hx Hx'.
  destruct (decide (x ∈ State.stars st)) as [H|H]; [set_solver|].
  by destruct (Hn x Hx H).
Qed.

Lemma state_wf_evolves board st st' :
  state_wf board st → evolves st st' → state_wf board st'.
Proof.
  intros [Hs Hk Hd] He. pose proof (evolves_support _ _ He).
  split; [set_solver|destruct He as (_ & _ & ? & _); set_solver|].
  by eapply evolves_disjoint.
Qed.

Lemma slack_union U st :
  State.stars st ## State.unknowns st →
  slack U st = Z.of_nat (size (U ∩ (State.stars st ∪ State.unknowns st))).
Proof.
  intros Hd. unfold slack, count_stars.
  replace (U ∩ (State.stars st ∪ State.unknowns st))
    with (U ∩ State.stars st ∪ U ∩ State.unknowns st) by set_solver.
  rewrite (size_union (U ∩ State.stars st) (U ∩ State.unknowns st))
    by set_solver. lia.
Qed.

Lemma slack_evolves_le U st st' :
  evolves st st' → State.stars st ## State.unknowns st →
  slack U st' ≤ slack U st.
Proof.
  intros He Hd. rewrite !slack_union by eauto using evolves_disjoint.
  apply inj_le, subseteq_size. pose proof (evolves_support _ _ He). set_solver.
Qed.

Lemma slack_evolves_eq U st st' c :
  evolves st st' → State.stars st ## State.unknowns st →
  slack U st' = slack U st → c ∈ U → c ∈ State.unknowns st →
  c ∈ State.stars st' ∪ State.unknowns st'.
Proof.
  intros He Hd Heq HU Hc. rewrite !slack_union in Heq by eauto using evolves_disjoint.
  pose proof (evolves_support _ _ He) as Hsup.
  assert (U ∩ (State.stars st' ∪ State.unknowns st')
          = U ∩ (State.stars st ∪ State.unknowns st)) as Hset.
  { apply set_subseteq_size_eq; [set_solver|lia]. }
  assert (c ∈ U ∩ (State.stars st ∪ State.unknowns st)) as Hin by set_solver.
  rewrite <- Hset in Hin. set_solver.
Qed.

Lemma cells_spec board c :
  c ∈ cells board ↔ 0 ≤ c < Board.N board * Board.N board.
Proof.
  unfold cells, range. rewrite elem_of_list_to_set, elem_of_seqZ. lia.
Qed.

Lemma cells_N_nonzero board c : c ∈ cells board → Board.N board ≠ 0.
Proof. rewrite cells_spec. nia. Qed.

Lemma size_unknowns_evolves st st' :
  evolves st st' → (size (State.unknowns st') ≤ size (State.unknowns st))%nat.
Proof. intros (_ & _ & Hk & _). by apply subseteq_size. Qed.

Lemma size_unknowns_removed (unk : gset Z) c :
  c ∈ unk → (size (unk ∖ {[c]}) < size unk)%nat.
Proof. intros Hc. apply subset_size. set_solver. Qed.

Section Propagation.
Context (board : Board.t) (Hwf : board_wf board).

(** The callees as the bodies need them. *)
Definition star_spec (star : Z → State.t → outcome * State.t) : Prop :=
  ∀ c st st', star c st = (Success, st') → propagates board st st'.

Definition blank_spec (blank_f : Z → State.t → outcome * State.t) : Prop :=
  ∀ c st st', blank_f c st = (Success, st') →
    propagates board st st' ∧ (c ∉ State.stars st → blank c st').

Lemma each_neighbors_blank blank_f l st st' :
  (∀ c st, evolves st (blank_f c st).2) → blank_spec blank_f →
  each (λ c state, if decide (c ∈ State.stars state) then (Failure, state)
                   else blank_f c state) l st = (Success, st') →
  ∀ n, n ∈ l → blank n st'.
Proof.
  intros Hev Hb. revert st. induction l as [|x l IH]; intros st He n Hn.
  - by apply elem_of_nil in Hn.
  - apply each_success_inv in He as (mid & Hx & He).
    case_decide; [done|]. apply elem_of_cons in Hn as [->|Hn].
    + apply Hb in Hx as [_ Hx]. eapply blank_evolves; [by apply Hx|].
      eapply each_evolves; [|exact He].
      intros c st0. simpl. case_decide; [reflexivity|apply Hev].
    + eapply IH; eauto.
Qed.

Lemma put_star_with_propagates blank_f cell st st' :
  (∀ c st, evolves st (blank_f c st).2) → blank_spec blank_f →
  put_star_with blank_f cell board st = (Success, st') →
  propagates board st st'.
Proof.
  intros Hev Hb. unfold put_star_with.
  case_decide as Hstar; [intros; simplify_eq; reflexivity|].
  case_decide as Hunk; [|done].
  destruct st as [us0 stars0 unk0]; simpl in *.
  set (st1 := State.mk _ _ _).
  destruct (Board.units_for board !! cell) as [us|] eqn:Hus; [|done].
  destruct (existsb _ us) eqn:Hex; [done|]. case_decide as HN; [done|].
  intros He.
  assert (propagates board st1 st') as (He1 & Hc1 & Hq1).
  { revert He. apply each_success_rel; [apply _|].
    intros c sa sb _. case_decide; [done|]. intros Hc. by apply Hb in Hc as []. }
  assert (evolves (State.mk us0 stars0 unk0) st1) as He0.
  { unfold evolves, st1; simpl. set_solver. }
  split; [by etrans|]. split.
  - intros x Hx Hnx. simpl in Hnx. destruct (decide (x = cell)) as [->|Hne].
    + intros n Hn. eapply each_neighbors_blank; eauto.
      rewrite set_iter_perm. by apply elem_of_elements.
    + apply Hc1; [done|]. unfold st1; simpl. set_solver.
  - intros U HU. destruct (Hq1 U HU) as [Hcnt Hsl]. split.
    + destruct Hcnt as [?| ->]; [by left|].
      destruct (decide (cell ∈ U)) as [Hin|Hin].
      * left. assert (U ∈ us) as HUus by (by apply (wf_units_for _ Hwf cell us)).
        apply not_true_iff_false in Hex. rewrite existsb_exists in Hex.
        destruct (decide (count_stars U st1 ≤ Board.S board)); [done|].
        exfalso. apply Hex. exists U. split; [by apply list_elem_of_In|].
        apply Z.ltb_lt. lia.
      * right. unfold count_stars, st1; simpl.
        rewrite size_inter_add by done. by rewrite decide_False.
    + destruct Hsl as [?| ->]; [by left|]. right.
      by apply slack_star_moved.
Qed.

(** The loop of [put_blank] over the units of the cell. *)
Definition blank_unit star (unit : gset Z) (state : State.t) :=
  let s := count_stars unit state in
  let unknowns := unit ∩ State.unknowns state in
  if decide (s + Z.of_nat (size unknowns) < Board.S board)
  then (Failure, state)
  else if decide (s + Z.of_nat (size unknowns) = Board.S board)
  then each star (set_iter unknowns) state
  else (Success, state).

Lemma blank_unit_propagates star U st st' :
  star_spec star → blank_unit star U st = (Success, st') →
  propagates board st st' ∧ Board.S board ≤ slack U st.
Proof.
  intros Hs. unfold blank_unit. fold (slack U st).
  case_decide; [done|]. case_decide.
  - intros He. split; [|lia]. revert He. apply each_success_rel; [apply _|].
    intros c sa sb _. apply Hs.
  - intros; simplify_eq. split; [reflexivity|lia].
Qed.

Lemma each_units_slack star us st st' :
  star_spec star → each (blank_unit star) us st = (Success, st') →
  ∀ U, U ∈ us → U ∈ Board.units board → Board.S board ≤ slack U st'.
Proof.
  intros Hs. revert st. induction us as [|V us IH]; intros st He U HU HUb.
  - by apply elem_of_nil in HU.
  - apply each_success_inv in He as (mid & HV & He).
    destruct (decide (U ∈ us)) as [Hin|Hin]; [by eapply IH|].
    apply elem_of_cons in HU as [->|]; [|done].
    apply blank_unit_propagates in HV as [(_ & _ & Hq) HS]; [|done].
    assert (propagates board mid st') as (_ & _ & Hq').
    { revert He. apply each_success_rel; [apply _|].
      intros W sa sb _ HW. by apply blank_unit_propagates in HW as []. }
    destruct (Hq' V HUb) as [_ [?| ->]]; [done|].
    destruct (Hq V HUb) as [_ [?| ->]]; done.
Qed.

Lemma put_blank_with_propagates star cell st st' :
  star_spec star →
  put_blank_with star cell board st = (Success, st') →
  propagates board st st' ∧ (cell ∉ State.stars st → blank cell st').
Proof.
  intros Hs. unfold put_blank_with.
  case_decide as Hunk; [|intros; simplify_eq; split; [reflexivity|done]].
  destruct st as [us0 stars0 unk0]; simpl in *.
  set (st1 := State.mk _ _ _).
  destruct (Board.units_for board !! cell) as [us|] eqn:Hus; [|done].
  change (each _ us st1) with (each (blank_unit star) us st1).
  intros He.
  assert (propagates board st1 st') as (He1 & Hc1 & Hq1).
  { revert He. apply each_success_rel; [apply _|].
    intros W sa sb _ HW. by apply blank_unit_propagates in HW as []. }
  assert (evolves (State.mk us0 stars0 unk0) st1) as He0.
  { unfold evolves, st1; simpl. set_solver. }
  split; [split; [by etrans|split]|].
  - intros x Hx Hnx. by apply Hc1.
  - intros U HU. destruct (Hq1 U HU) as [Hcnt Hsl]. split; [exact Hcnt|].
    destruct (decide (cell ∈ U)) as [Hin|Hin].
    + left. eapply each_units_slack; eauto.
      by apply (wf_units_for _ Hwf cell us).
    + destruct Hsl as [?| ->]; [by left|]. right.
      unfold slack, count_stars, st1; simpl.
      by replace (U ∩ (unk0 ∖ {[cell]})) with (U ∩ unk0) by set_solver.
  - intros Hstar. eapply blank_evolves; [|exact He1].
    split; simpl; set_solver.
Qed.

Lemma no_fuel_star_spec : star_spec no_fuel.
Proof. intros c st st' H. discriminate. Qed.

Lemma no_fuel_blank_spec : blank_spec no_fuel.
Proof. intros c st st' H. discriminate. Qed.

Lemma put_propagates fuel :
  star_spec (λ c st, put_star fuel c board st)
  ∧ blank_spec (λ c st, put_blank fuel c board st).
Proof.
  induction fuel as [|f [IHs IHb]]; split; intros cell st st'; simpl.
  - apply put_star_with_propagates;
      [apply no_fuel_evolves|apply no_fuel_blank_spec].
  - apply put_blank_with_propagates, no_fuel_star_spec.
  - apply put_star_with_propagates; [|exact IHb].
    intros c st0. apply put_evolves.
  - apply put_blank_with_propagates. exact IHs.
Qed.

(** ** No exception on the states of a search *)

Definition star_safe (star : Z → State.t → outcome * State.t) : Prop :=
  ∀ c st, state_wf board st → c ∈ State.stars st ∪ State.unknowns st →
          ¬ is_raised (star c st).1.

Definition blank_safe (blank_f : Z → State.t → outcome * State.t) : Prop :=
  ∀ c st, state_wf board st → ¬ is_raised (blank_f c st).1.

Lemma put_star_with_safe blank_f :
  blank_spec blank_f → blank_safe blank_f →
  star_safe (λ c st, put_star_with blank_f c board st).
Proof.
  intros Hb Hsafe cell st Hst Hin. unfold put_star_with.
  case_decide as Hstar; [ends|].
  case_decide as Hunk; [|set_solver].
  set (st1 := State.mk _ _ _).
  assert (state_wf board st1) as Hst1.
  { eapply state_wf_evolves; [exact Hst|]. unfold evolves, st1; simpl. set_solver. }
  assert (cell ∈ cells board) as Hcell by (by apply (wf_unknowns _ _ Hst)).
  destruct (proj2 (wf_dom _ Hwf cell) Hcell) as [us ->].
  destruct (existsb _ us); [ends|].
  case_decide as HN; [by apply cells_N_nonzero in Hcell|].
  apply (each_inv (state_wf board)); [ends|done| |].
  - intros c sc _ Hsc. case_decide; [ends|by apply Hsafe].
  - intros c sc sc' _ Hsc. case_decide; [done|]. intros Hc.
    apply Hb in Hc as [(He & _) _]. by eapply state_wf_evolves.
Qed.

Lemma blank_unit_safe star U st :
  star_spec star → star_safe star → state_wf board st →
  U ∈ Board.units board →
  ¬ is_raised (blank_unit star U st).1.
Proof.
  intros Hs Hsafe Hst HU. unfold blank_unit. fold (slack U st).
  case_decide; [ends|]. case_decide as Heq; [|ends].
  apply (each_inv (λ cur, state_wf board cur ∧ propagates board st cur));
    [ends|split; [done|reflexivity]| |].
  - intros c cur Hc [Hcur (He & _ & Hq)]. apply Hsafe; [done|].
    rewrite set_iter_perm, elem_of_elements in Hc.
    apply elem_of_intersection in Hc as [HcU Hc].
    pose proof (slack_evolves_le U _ _ He (wf_disjoint _ _ Hst)) as Hle.
    assert (slack U cur = slack U st) as Hsl
      by (destruct (Hq U HU) as [_ [?|?]]; lia).
    eapply slack_evolves_eq; eauto using wf_disjoint.
  - intros c cur cur' _ [Hcur Hp] Hc. apply Hs in Hc.
    split; [|by etrans]. eapply state_wf_evolves; [exact Hcur|apply Hc].
Qed.

Lemma put_blank_with_safe star :
  star_spec star → star_safe star →
  blank_safe (λ c st, put_blank_with star c board st).
Proof.
  intros Hs Hsafe cell st Hst. unfold put_blank_with.
  case_decide as Hunk; [|ends].
  set (st1 := State.mk _ _ _).
  assert (state_wf board st1) as Hst1.
  { eapply state_wf_evolves; [exact Hst|]. unfold evolves, st1; simpl. set_solver. }
  assert (cell ∈ cells board) as Hcell by (by apply (wf_unknowns _ _ Hst)).
  destruct (proj2 (wf_dom _ Hwf cell) Hcell) as [us Hus]. rewrite Hus.
  change (each _ us st1) with (each (blank_unit star) us st1).
  apply (each_inv (state_wf board)); [ends|done| |].
  - intros U sc HU Hsc. apply blank_unit_safe; try done.
    by apply (wf_units_for _ Hwf cell us Hus).
  - intros U sc sc' _ Hsc HU.
    apply blank_unit_propagates in HU as [(He & _) _]; [|done].
    by eapply state_wf_evolves.
Qed.

Lemma put_safe fuel :
  star_safe (λ c st, put_star fuel c board st)
  ∧ blank_safe (λ c st, put_blank fuel c board st).
Proof.
  induction fuel as [|f [IHs IHb]]; split; simpl.
  - apply put_star_with_safe; [apply no_fuel_blank_spec|].
    intros c st _. ends.
  - apply put_blank_with_safe; [apply no_fuel_star_spec|].
    intros c st _ _. ends.
  - apply (put_star_with_safe (λ c st, put_blank f c board st));
      [apply put_propagates|done].
  - apply (put_blank_with_safe (λ c st, put_star f c board st));
      [apply put_propagates|done].
Qed.

(** ** Enough fuel *)

Definition fueled (n : nat) (f : Z → State.t → outcome * State.t) : Prop :=
  ∀ c st, (size (State.unknowns st) < n)%nat → (f c st).1 ≠ NoFuel.

Lemma put_star_with_fueled n blank_f cell st :
  (∀ c st, evolves st (blank_f c st).2) → fueled n blank_f →
  (size (State.unknowns st) ≤ n)%nat →
  (put_star_with blank_f cell board st).1 ≠ NoFuel.
Proof.
  intros Hev Hf Hn. unfold put_star_with.
  case_decide; [done|]. case_decide as Hunk; [|done].
  set (st1 := State.mk _ _ _).
  destruct (Board.units_for board !! cell); [|done].
  destruct (existsb _ _); [done|]. case_decide; [done|].
  apply (each_inv (λ cur, (size (State.unknowns cur) < n)%nat) (λ o, o = NoFuel));
    [done| | |].
  - unfold st1; simpl. pose proof (size_unknowns_removed _ _ Hunk). lia.
  - intros c cur _ Hcur. case_decide; [done|by apply Hf].
  - intros c cur cur' _ Hcur. case_decide; [done|]. intros Hc.
    pose proof (Hev c cur) as He. rewrite Hc in He.
    apply size_unknowns_evolves in He. simpl in He. lia.
Qed.

Lemma put_blank_with_fueled n star cell st :
  (∀ c st, evolves st (star c st).2) → fueled n star →
  (size (State.unknowns st) ≤ n)%nat →
  (put_blank_with star cell board st).1 ≠ NoFuel.
Proof.
  intros Hev Hf Hn. unfold put_blank_with.
  case_decide as Hunk; [|done].
  set (st1 := State.mk _ _ _).
  destruct (Board.units_for board !! cell); [|done].
  assert (∀ l cur, (size (State.unknowns cur) < n)%nat →
                   (each star l cur).1 ≠ NoFuel) as Hstars.
  { intros l0 cur Hcur.
    apply (each_inv (λ cur, (size (State.unknowns cur) < n)%nat) (λ o, o = NoFuel));
      [done|done| |].
    - intros c sc _ Hsc. by apply Hf.
    - intros c sc sc' _ Hsc Hc. pose proof (Hev c sc) as He. rewrite Hc in He.
      apply size_unknowns_evolves in He. simpl in He. lia. }
  apply (each_inv (λ cur, (size (State.unknowns cur) < n)%nat) (λ o, o = NoFuel));
    [done| | |].
  - unfold st1; simpl. pose proof (size_unknowns_removed _ _ Hunk). lia.
  - intros U cur _ Hcur. simpl. case_decide; [done|].
    case_decide; [|done]. by apply Hstars.
  - intros U cur cur' _ Hcur. simpl. case_decide; [done|].
    case_decide; [|by intros; simplify_eq]. intros Hc.
    eapply each_evolves in Hc; [|done].
    apply size_unknowns_evolves in Hc. lia.
Qed.

Lemma put_fueled fuel :
  (∀ cell st, (size (State.unknowns st) ≤ fuel)%nat →
     (put_star fuel cell board st).1 ≠ NoFuel)
  ∧ (∀ cell st, (size (State.unknowns st) ≤ fuel)%nat →
     (put_blank fuel cell board st).1 ≠ NoFuel).
Proof.
  induction fuel as [|f [IHs IHb]]; split; intros cell st Hn; simpl.
  - apply (put_star_with_fueled 0); [apply no_fuel_evolves| |done].
    intros c sc Hc. lia.
  - apply (put_blank_with_fueled 0); [apply no_fuel_evolves| |done].
    intros c sc Hc. lia.
  - apply (put_star_with_fueled (Datatypes.S f)); [|intros c sc Hc; apply IHb; lia|done].
    intros c sc. apply put_evolves.
  - apply (put_blank_with_fueled (Datatypes.S f)); [|intros c sc Hc; apply IHs; lia|done].
    intros c sc. apply put_evolves.
Qed.

(** ** Propagation never contradicts a placement *)

Section Placement.
Context (X : gset Z).
Context (HXunits : ∀ U, U ∈ Board.units board →
                        Z.of_nat (size (X ∩ U)) = Board.S board).
Context (HXapart : ∀ c n, c ∈ X → n ∈ neighbors c (Board.N board) → n ∉ X).

Definition agrees (st : State.t) : Prop := consistent X st ∧ state_wf board st.

Definition star_complete (star : Z → State.t → outcome * State.t) : Prop :=
  ∀ c st, c ∈ X → agrees st →
    (star c st).1 ≠ Failure ∧ ∀ st', star c st = (Success, st') → agrees st'.

Definition blank_complete (blank_f : Z → State.t → outcome * State.t) : Prop :=
  ∀ c st, c ∉ X → agrees st →
    (blank_f c st).1 ≠ Failure ∧ ∀ st', blank_f c st = (Success, st') → agrees st'.

Lemma agrees_count U st :
  agrees st → U ∈ Board.units board → count_stars U st ≤ Board.S board.
Proof.
  intros [[Hs _] _] HU. rewrite <- (HXunits U HU). unfold count_stars.
  apply inj_le, subseteq_size. set_solver.
Qed.

Lemma agrees_slack U st :
  agrees st → U ∈ Board.units board → Board.S board ≤ slack U st.
Proof.
  intros [[_ Hx] [_ _ Hd]] HU. rewrite <- (HXunits U HU), slack_union by done.
  apply inj_le, subseteq_size. set_solver.
Qed.

Lemma agrees_forced U st c :
  agrees st → U ∈ Board.units board → slack U st = Board.S board →
  c ∈ U → c ∈ State.unknowns st → c ∈ X.
Proof.
  intros [[_ Hx] [_ _ Hd]] HU Heq HcU Hc.
  rewrite <- (HXunits U HU), slack_union in Heq by done.
  assert (X ∩ U = U ∩ (State.stars st ∪ State.unknowns st)) as Hset.
  { apply set_subseteq_size_eq; [set_solver|lia]. }
  assert (c ∈ U ∩ (State.stars st ∪ State.unknowns st)) as Hin by set_solver.
  rewrite <- Hset in Hin. set_solver.
Qed.

Lemma put_star_with_complete blank_f :
  blank_spec blank_f → blank_complete blank_f →
  star_complete (λ c st, put_star_with blank_f c board st).
Proof.
  intros Hb Hcomp cell st HX Hag. unfold put_star_with.
  case_decide as Hstar; [split; [done|by intros; simplify_eq]|].
  case_decide as Hunk; [|done].
  set (st1 := State.mk _ _ _).
  assert (agrees st1) as Hag1.
  { destruct Hag as [[Hs Hx] Hst]. split.
    - split; unfold st1; simpl; [set_solver|].
      intros x Hin. destruct (decide (x = cell)); set_solver.
    - eapply state_wf_evolves; [exact Hst|]. unfold evolves, st1; simpl. set_solver. }
  destruct (Board.units_for board !! cell) as [us|] eqn:Hus; [|done].
  destruct (existsb _ us) eqn:Hex.
  { exfalso. apply existsb_exists in Hex as (U & HU & Hlt).
    apply list_elem_of_In, (wf_units_for _ Hwf cell us Hus) in HU as [HU _].
    apply Z.ltb_lt in Hlt. pose proof (agrees_count U st1 Hag1 HU). lia. }
  case_decide as HN; [done|].
  assert (∀ c cur cur', c ∈ set_iter (neighbors cell (Board.N board)) →
            agrees cur →
            (if decide (c ∈ State.stars cur) then (Failure, cur)
             else blank_f c cur) = (Success, cur') → agrees cur') as Hpres.
  { intros c cur cur' Hc Hcur. case_decide; [done|]. intros Hbc.
    eapply Hcomp; [|exact Hcur|exact Hbc].
    rewrite set_iter_perm, elem_of_elements in Hc. by eapply HXapart. }
  split.
  - apply (each_inv agrees (λ o, o = Failure)); [done|done| |exact Hpres].
    intros c cur Hc Hcur. rewrite set_iter_perm, elem_of_elements in Hc.
    pose proof (HXapart cell c HX Hc) as HcX.
    case_decide as Hcs; [destruct Hcur as [[Hs _] _]; set_solver|].
    by apply Hcomp.
  - intros st'. by apply each_inv_success.
Qed.

Lemma blank_unit_complete star U st :
  star_spec star → star_complete star → agrees st → U ∈ Board.units board →
  (blank_unit star U st).1 ≠ Failure
  ∧ ∀ st', blank_unit star U st = (Success, st') → agrees st'.
Proof.
  intros Hs Hcomp Hag HU. unfold blank_unit. fold (slack U st).
  pose proof (agrees_slack U st Hag HU).
  case_decide; [lia|]. case_decide as Heq; [|split; [done|by intros; simplify_eq]].
  assert (∀ c cur cur', c ∈ set_iter (U ∩ State.unknowns st) →
            agrees cur → star c cur = (Success, cur') → agrees cur') as Hpres.
  { intros c cur cur' Hc Hcur. apply Hcomp; [|done].
    rewrite set_iter_perm, elem_of_elements in Hc.
    apply elem_of_intersection in Hc as []. by apply (agrees_forced U st c). }
  split.
  - apply (each_inv agrees (λ o, o = Failure)); [done|done| |exact Hpres].
    intros c cur Hc Hcur. apply Hcomp; [|done].
    rewrite set_iter_perm, elem_of_elements in Hc.
    apply elem_of_intersection in Hc as []. by apply (agrees_forced U st c).
  - intros st'. by apply each_inv_success.
Qed.

Lemma put_blank_with_complete star :
  star_spec star → star_complete star →
  blank_complete (λ c st, put_blank_with star c board st).
Proof.
  intros Hs Hcomp cell st HX Hag. unfold put_blank_with.
  case_decide as Hunk; [|split; [done|by intros; simplify_eq]].
  set (st1 := State.mk _ _ _).
  assert (agrees st1) as Hag1.
  { destruct Hag as [[Hsx Hx] Hst]. split.
    - split; unfold st1; simpl; [set_solver|].
      intros x Hin. destruct (decide (x = cell)); set_solver.
    - eapply state_wf_evolves; [exact Hst|]. unfold evolves, st1; simpl. set_solver. }
  destruct (Board.units_for board !! cell) as [us|] eqn:Hus; [|done].
  change (each _ us st1) with (each (blank_unit star) us st1).
  assert (∀ U, U ∈ us → U ∈ Board.units board) as Hus'.
  { intros U HU. by apply (wf_units_for _ Hwf cell us Hus). }
  split.
  - apply (each_inv agrees (λ o, o = Failure)); [done|done| |].
    + intros U cur HU Hcur. by apply blank_unit_complete; auto.
    + intros U cur cur' HU Hcur. by apply blank_unit_complete; auto.
  - intros st'. apply each_inv_success; [done|].
    intros U cur cur' HU Hcur. by apply blank_unit_complete; auto.
Qed.

Lemma put_complete fuel :
  star_complete (λ c st, put_star fuel c board st)
  ∧ blank_complete (λ c st, put_blank fuel c board st).
Proof.
  induction fuel as [|f [IHs IHb]]; split; simpl.
  - apply put_star_with_complete; [apply no_fuel_blank_spec|].
    intros c st _ _. split; [done|discriminate].
  - apply put_blank_with_complete; [apply no_fuel_star_spec|].
    intros c st _ _. split; [done|discriminate].
  - apply (put_star_with_complete (λ c st, put_blank f c board st));
      [apply put_propagates|done].
  - apply (put_blank_with_complete (λ c st, put_star f c board st));
      [apply put_propagates|done].
Qed.

End Placement.

(** ** The search *)

(** What holds of every state [search] runs on. *)
Record search_inv (st : State.t) : Prop := {
  si_wf : state_wf board st;
  si_closed : ∀ c, c ∈ State.stars st → closed (Board.N board) c st;
  si_units : ∀ U, U ∈ State.units st → U ∈ Board.units board;
  si_filled : ∀ U, U ∈ Board.units board →
      U ∈ State.units st ∨ count_stars U st = Board.S board
}.

Lemma copy_state_id st : copy_state st = st.
Proof. by destruct st. Qed.

Lemma discard_filled_drop stars us :
  ∃ k, discard_filled board stars us = drop k us.
Proof.
  induction us as [|u us [k IH]]; simpl.
  - by exists 0%nat.
  - case_decide; [|by exists 0%nat]. exists (Datatypes.S k). by rewrite IH.
Qed.

Lemma discard_filled_elem stars us U :
  U ∈ us →
  U ∈ discard_filled board stars us ∨ Z.of_nat (size (U ∩ stars)) = Board.S board.
Proof.
  induction us as [|u us IH]; simpl; [by intros ?%elem_of_nil|].
  intros HU. case_decide as Hu; [|by left].
  apply elem_of_cons in HU as [->|HU]; [by right|by apply IH].
Qed.

Lemma discard_filled_head stars us u rest :
  discard_filled board stars us = u :: rest →
  Z.of_nat (size (u ∩ stars)) ≠ Board.S board.
Proof.
  induction us as [|v us IH]; simpl; [done|].
  case_decide; [done|]. intros; by simplify_eq.
Qed.

Lemma discard_filled_sub stars us U :
  U ∈ discard_filled board stars us → U ∈ us.
Proof.
  destruct (discard_filled_drop stars us) as [k ->].
  intros HU. apply list_elem_of_lookup in HU as [i Hi].
  rewrite lookup_drop in Hi. by eapply list_elem_of_lookup_2.
Qed.

Lemma search_inv_discard st :
  search_inv st →
  search_inv (State.mk (discard_filled board (State.stars st) (State.units st))
                       (State.stars st) (State.unknowns st)).
Proof.
  intros [Hwf' Hcl Hun Hfi]. split; simpl.
  - by destruct Hwf'.
  - intros c Hc n Hn. by apply (Hcl c Hc n Hn).
  - intros U HU. by apply Hun, (discard_filled_sub (State.stars st)).
  - intros U HU. destruct (Hfi U HU) as [Hin|Heq]; [|by right].
    by apply (discard_filled_elem (State.stars st)) in Hin as [?|?]; [left|right].
Qed.

Lemma search_inv_propagates st st' :
  search_inv st → propagates board st st' → search_inv st'.
Proof.
  intros [Hwf' Hcl Hun Hfi] (He & Hnew & Hq). split.
  - by eapply state_wf_evolves.
  - intros c Hc. destruct (decide (c ∈ State.stars st)) as [Hold|Hold].
    + eapply closed_evolves; eauto.
    + by apply Hnew.
  - destruct He as (-> & _). done.
  - intros U HU. destruct He as (Hunits & Hstars & _). rewrite Hunits.
    destruct (Hfi U HU) as [?|Heq]; [by left|right].
    assert (count_stars U st ≤ count_stars U st') as Hle.
    { apply inj_le, subseteq_size. set_solver. }
    destruct (Hq U HU) as [[?|?] _]; lia.
Qed.

Lemma search_inv_is_solution st :
  search_inv st → State.units st = [] →
  is_solution board (State.stars st) = Return true.
Proof.
  intros [Hwf' Hcl Hun Hfi] Hnil. unfold is_solution.
  assert (forallb (λ unit, bool_decide
            (Z.of_nat (size (State.stars st ∩ unit)) = Board.S board))
            (Board.units board) = true) as ->.
  { apply forallb_forall. intros U HU%list_elem_of_In.
    apply bool_decide_eq_true. destruct (Hfi U HU) as [Hin|Heq].
    - rewrite Hnil in Hin. by apply elem_of_nil in Hin.
    - rewrite <- Heq. unfold count_stars. do 2 f_equal. set_solver. }
  case_decide as Hempty; [done|]. case_decide as HN.
  - apply set_choose_L in Hempty as [c Hc].
    apply (wf_stars _ _ Hwf'), cells_N_nonzero in Hc. done.
  - f_equal. apply bool_decide_eq_true. intros c1 Hc1 c2 Hc2 Hn.
    by destruct (Hcl c2 Hc2 c1 Hn).
Qed.

Lemma yield_from_each_Forall {A B} (P : B → Prop)
    (f : A → list B * result unit) l :
  (∀ x, x ∈ l → Forall P (f x).1) → Forall P (yield_from_each f l).1.
Proof.
  induction l as [|x l IH]; intros Hf; simpl; [constructor|].
  pose proof (Hf x (list_elem_of_here _ _)) as Hx.
  destruct (f x) as [ys []]; simpl in *; try done.
  destruct (yield_from_each f l) as [zs r]; simpl in *.
  apply Forall_app. split; [done|]. apply IH. intros y Hy. apply Hf. by right.
Qed.

Lemma yield_from_each_ends {A B} (f : A → list B * result unit) l :
  (∀ x, x ∈ l → (f x).2 = Return ()) → (yield_from_each f l).2 = Return ().
Proof.
  induction l as [|x l IH]; intros Hf; simpl; [done|].
  pose proof (Hf x (list_elem_of_here _ _)) as Hx.
  destruct (f x) as [ys []]; simpl in *; try done.
  destruct (yield_from_each f l) as [zs r]; simpl in *.
  apply IH. intros y Hy. apply Hf. by right.
Qed.

Lemma yield_from_each_elem {A B} (f : A → list B * result unit) l x y :
  (∀ x, x ∈ l → (f x).2 = Return ()) → x ∈ l → y ∈ (f x).1 →
  y ∈ (yield_from_each f l).1.
Proof.
  induction l as [|z l IH]; intros Hf Hx Hy; simpl; [by apply elem_of_nil in Hx|].
  pose proof (Hf z (list_elem_of_here _ _)) as Hz.
  destruct (f z) as [ys []] eqn:Ez; simpl in *; try done.
  destruct (yield_from_each f l) as [zs r] eqn:El; simpl in *.
  apply elem_of_app. apply elem_of_cons in Hx as [->|Hx].
  - left. by rewrite Ez in Hy.
  - right. apply IH; [|done|done]. intros w Hw. apply Hf. by right.
Qed.

(** Soundness: every state yielded is a solved state. *)
Definition solved (st : State.t) : Prop :=
  search_inv st ∧ State.units st = [].

Lemma search_with_sound rec fuel st :
  (∀ st, search_inv st → Forall solved (rec st).1) →
  search_inv st →
  Forall solved (search_with rec (λ c st, put_star fuel c board st) board st).1.
Proof.
  intros Hrec Hinv%search_inv_discard. unfold search_with.
  set (st0 := State.mk _ _ _) in *. simpl.
  destruct (discard_filled _ _ _) as [|u rest] eqn:Hd.
  - simpl. constructor; [|constructor]. by split.
  - apply yield_from_each_Forall. intros c _. unfold guess.
    rewrite copy_state_id.
    destruct (put_star fuel c board st0) as [[] g] eqn:Hput; simpl;
      try constructor.
    apply Hrec. eapply search_inv_propagates; [exact Hinv|].
    by apply (proj1 (put_propagates fuel) c st0 g).
Qed.

Lemma search_unfold fuel st :
  search fuel board st
  = search_with (match fuel with
                 | O => λ _, ([], OutOfFuel)
                 | Datatypes.S f => search f board
                 end) (λ c st, put_star fuel c board st) board st.
Proof. by destruct fuel. Qed.

Lemma search_sound fuel st :
  search_inv st → Forall solved (search fuel board st).1.
Proof.
  revert st. induction fuel as [|f IH]; intros st Hinv; rewrite search_unfold.
  - apply search_with_sound; [|done]. intros; simpl. constructor.
  - apply search_with_sound; [|done]. exact IH.
Qed.

(** A guess ends, and leaves fewer unknowns. *)
Lemma put_star_removes fuel c st o st' :
  put_star fuel c board st = (o, st') →
  c ∈ State.unknowns st → c ∉ State.stars st → c ∉ State.unknowns st'.
Proof.
  intros Hput Hunk Hstar.
  assert (put_star_with
            (match fuel with
             | O => no_fuel
             | Datatypes.S f => λ c st, put_blank f c board st
             end) c board st = (o, st')) as H.
  { by destruct fuel. }
  assert (∀ c st, evolves st
            ((match fuel with
              | O => no_fuel
              | Datatypes.S f => λ c st, put_blank f c board st
              end) c st).2) as Hev.
  { intros c0 st0. destruct fuel; [apply no_fuel_evolves|apply put_evolves]. }
  revert H. unfold put_star_with. rewrite decide_False, decide_True by done.
  set (st1 := State.mk _ _ _).
  assert (c ∉ State.unknowns st1) as Hst1 by (unfold st1; simpl; set_solver).
  destruct (Board.units_for board !! c); [|by intros; simplify_eq].
  destruct (existsb _ _); [by intros; simplify_eq|].
  case_decide; [by intros; simplify_eq|]. intros He.
  apply each_evolves in He as (_ & _ & Hk & _); [set_solver|].
  intros n sn. simpl. case_decide; [reflexivity|apply Hev].
Qed.

Lemma put_star_adds fuel c st st' :
  put_star fuel c board st = (Success, st') → c ∈ State.stars st'.
Proof.
  intros Hput.
  assert (put_star_with
            (match fuel with
             | O => no_fuel
             | Datatypes.S f => λ c st, put_blank f c board st
             end) c board st = (Success, st')) as H.
  { by destruct fuel. }
  assert (∀ c st, evolves st
            ((match fuel with
              | O => no_fuel
              | Datatypes.S f => λ c st, put_blank f c board st
              end) c st).2) as Hev.
  { intros c0 st0. destruct fuel; [apply no_fuel_evolves|apply put_evolves]. }
  revert H. unfold put_star_with.
  case_decide; [by intros; simplify_eq|]. case_decide; [|done].
  set (st1 := State.mk _ _ _).
  assert (c ∈ State.stars st1) as Hst1 by (unfold st1; simpl; set_solver).
  destruct (Board.units_for board !! c); [|done].
  destruct (existsb _ _); [done|]. case_decide; [done|]. intros He.
  apply each_evolves in He as (_ & Hs & _); [set_solver|].
  intros n sn. simpl. case_decide; [reflexivity|apply Hev].
Qed.

Lemma guess_outcome fuel c st :
  state_wf board st → c ∈ State.unknowns st →
  (size (State.unknowns st) ≤ fuel)%nat →
  (put_star fuel c board st).1 = Failure
  ∨ ∃ g, put_star fuel c board st = (Success, g)
         ∧ propagates board st g
         ∧ (size (State.unknowns g) < size (State.unknowns st))%nat.
Proof.
  intros Hst Hc Hfuel.
  pose proof (proj1 (put_safe fuel) c st Hst) as Hsafe.
  pose proof (proj1 (put_fueled fuel) c st Hfuel) as Hf.
  destruct (put_star fuel c board st) as [o g] eqn:Hput; simpl in *.
  destruct o; [right|by left|exfalso; apply Hsafe; [set_solver|by rewrite Hput]|done].
  exists g. split; [done|].
  pose proof (proj1 (put_propagates fuel) c st g Hput) as Hp.
  split; [done|]. destruct Hp as ((_ & _ & Hk & _) & _).
  apply subset_size. split; [done|]. intros Hsub.
  eapply put_star_removes; [exact Hput|done| |by apply Hsub].
  intros Hs. by apply (wf_disjoint _ _ Hst c).
Qed.

Lemma search_with_ends rec fuel st :
  (∀ g, state_wf board g →
        (size (State.unknowns g) < size (State.unknowns st))%nat →
        (rec g).2 = Return ()) →
  state_wf board st → (size (State.unknowns st) ≤ fuel)%nat →
  (search_with rec (λ c st, put_star fuel c board st) board st).2 = Return ().
Proof.
  intros Hrec Hst Hfuel. unfold search_with.
  set (st0 := State.mk _ _ _) in *. simpl.
  assert (state_wf board st0) as Hst0 by (by destruct Hst).
  destruct (discard_filled _ _ _) as [|u rest] eqn:Hd; [done|].
  apply yield_from_each_ends. intros c Hc.
  rewrite set_iter_perm, elem_of_elements in Hc.
  apply elem_of_intersection in Hc as [_ Hc]. unfold guess.
  rewrite copy_state_id.
  destruct (guess_outcome fuel c st0 Hst0 Hc Hfuel) as [Hfail|(g & Hg & Hp & Hlt)].
  - destruct (put_star fuel c board st0) as [o g]; simpl in *. by subst o.
  - rewrite Hg. apply Hrec; [|done].
    eapply state_wf_evolves; [exact Hst0|apply Hp].
Qed.

Lemma search_ends fuel st :
  state_wf board st → (size (State.unknowns st) ≤ fuel)%nat →
  (search fuel board st).2 = Return ().
Proof.
  revert st. induction fuel as [|f IH]; intros st Hst Hfuel; rewrite search_unfold.
  - apply search_with_ends; [|done|done]. intros g _ Hlt. lia.
  - apply search_with_ends; [|done|done]. intros g Hg Hlt. apply IH; [done|lia].
Qed.

(** Completeness: a placement the state agrees with is yielded. *)
Section SearchPlacement.
Context (X : gset Z).
Context (HXunits : ∀ U, U ∈ Board.units board →
                        Z.of_nat (size (X ∩ U)) = Board.S board).
Context (HXapart : ∀ c n, c ∈ X → n ∈ neighbors c (Board.N board) → n ∉ X).

Lemma solved_agrees st :
  search_inv st → State.units st = [] → agrees X st → State.stars st = X.
Proof.
  intros [Hst _ _ Hfi] Hnil [[Hs Hx] _]. apply set_eq. intros c.
  split; [by apply Hs|]. intros Hc.
  assert (c ∈ cells board) as Hcell.
  { destruct Hst as [? ? _]. set_solver. }
  destruct (wf_cover _ Hwf c Hcell) as (U & HU & HcU).
  destruct (Hfi U HU) as [Hin|Heq].
  { rewrite Hnil in Hin. by apply elem_of_nil in Hin. }
  unfold count_stars in Heq. rewrite <- (HXunits U HU) in Heq.
  assert (U ∩ State.stars st = X ∩ U) as Hset.
  { apply set_subseteq_size_eq; [set_solver|lia]. }
  assert (c ∈ X ∩ U) as Hin by set_solver.
  rewrite <- Hset in Hin. set_solver.
Qed.

Lemma unfilled_candidate u st :
  agrees X st → u ∈ Board.units board →
  Z.of_nat (size (u ∩ State.stars st)) ≠ Board.S board →
  ∃ c, c ∈ X ∧ c ∈ u ∩ State.unknowns st.
Proof.
  intros Hag Hu Hne.
  assert (count_stars u st ≤ Board.S board) as Hle
    by (eapply agrees_count; eauto).
  unfold count_stars in Hle. destruct Hag as [[Hs Hx] _].
  destruct (set_choose_or_empty ((X ∩ u) ∖ State.stars st)) as [[c Hc]|Hempty].
  - exists c. clear -Hc Hx. set_solver.
  - exfalso. assert (X ∩ u ⊆ u ∩ State.stars st) as Hsub.
    { clear -Hempty. intros x Hx.
      destruct (decide (x ∈ State.stars st)); set_solver. }
    apply subseteq_size in Hsub. pose proof (HXunits u Hu). lia.
Qed.

Lemma search_with_complete rec fuel st :
  (∀ g, state_wf board g →
        (size (State.unknowns g) < size (State.unknowns st))%nat →
        (rec g).2 = Return ()) →
  (∀ g, search_inv g → agrees X g →
        (size (State.unknowns g) < size (State.unknowns st))%nat →
        ∃ y, y ∈ (rec g).1 ∧ State.stars y = X) →
  search_inv st → agrees X st → (size (State.unknowns st) ≤ fuel)%nat →
  ∃ y, y ∈ (search_with rec (λ c st, put_star fuel c board st) board st).1
       ∧ State.stars y = X.
Proof.
  intros Hends Hrec Hinv%search_inv_discard Hag Hfuel. unfold search_with.
  set (st0 := State.mk _ _ _) in *. simpl.
  assert (agrees X st0) as Hag0.
  { destruct Hag as [Hc Hst]. split; [done|by destruct Hst]. }
  pose proof (si_wf _ Hinv) as Hst0.
  destruct (discard_filled _ _ _) as [|u rest] eqn:Hd.
  - exists st0. split; [simpl; left|]. apply solved_agrees; [done| |done].
    by unfold st0; simpl; rewrite ?Hd.
  - assert (u ∈ Board.units board) as Hu.
    { apply (si_units _ Hinv). unfold st0; simpl; rewrite ?Hd. left. }
    destruct (unfilled_candidate u st0 Hag0 Hu) as (c & HcX & Hc).
    { by eapply discard_filled_head. }
    assert (∀ x, x ∈ set_iter (u ∩ State.unknowns st0) →
                 (guess rec (λ c st, put_star fuel c board st) st0 x).2
                 = Return ()) as Hall.
    { intros x Hx. rewrite set_iter_perm, elem_of_elements in Hx.
      apply elem_of_intersection in Hx as [_ Hx]. unfold guess.
      rewrite copy_state_id.
      destruct (guess_outcome fuel x st0 Hst0 Hx Hfuel)
        as [Hfail|(g & Hg & Hp & Hlt)].
      - destruct (put_star fuel x board st0) as [o g]; simpl in *. by subst o.
      - rewrite Hg. apply Hends; [|done].
        eapply state_wf_evolves; [exact Hst0|apply Hp]. }
    assert (star_complete X (λ c st, put_star fuel c board st)) as Hcomp
      by (eapply put_complete; eauto).
    destruct (Hcomp c st0 HcX Hag0) as [Hnf Hagg].
    assert (c ∈ State.unknowns st0) as Hcu by set_solver.
    destruct (guess_outcome fuel c st0 Hst0 Hcu Hfuel)
      as [Hfail|(g & Hg & Hp & Hlt)]; [done|].
    destruct (Hrec g) as (y & Hy & HyX); [|by apply Hagg|done|].
    { by eapply search_inv_propagates. }
    exists y. split; [|done].
    eapply (yield_from_each_elem _ _ c); [exact Hall| |].
    + rewrite set_iter_perm, elem_of_elements. done.
    + unfold guess. rewrite copy_state_id. simpl in Hg. by rewrite Hg.
Qed.

Lemma search_complete fuel st :
  search_inv st → agrees X st → (size (State.unknowns st) ≤ fuel)%nat →
  ∃ y, y ∈ (search fuel board st).1 ∧ State.stars y = X.
Proof.
  revert st. induction fuel as [|f IH]; intros st Hinv Hag Hfuel;
    rewrite search_unfold.
  - apply search_with_complete; try done; intros g; lia.
  - apply search_with_complete; try done.
    + intros g Hg Hlt. apply search_ends; [done|lia].
    + intros g Hg Hag' Hlt. apply IH; [done|done|lia].
Qed.

End SearchPlacement.

End Propagation.

(** ** Boards built by [make_board] *)

Lemma lookup_units_for (f : Z → list (gset Z)) (l : list Z) c :
  (list_to_map ((λ c, (c, f c)) <$> l) : gmap Z (list (gset Z))) !! c
  = if decide (c ∈ l) then Some (f c) else None.
Proof.
  induction l as [|x l IH]; [done|].
  rewrite fmap_cons, list_to_map_cons.
  destruct (decide (x = c)) as [->|Hne].
  - rewrite lookup_insert_eq. rewrite decide_True; [done|left].
  - rewrite lookup_insert_ne by done. rewrite IH.
    destruct (decide (c ∈ l)) as [Hin|Hin].
    + rewrite decide_True; [done|by right].
    + rewrite decide_False; [done|]. intros [?|?]%elem_of_cons; by simplify_eq.
Qed.

Lemma make_board_wf S picture board :
  make_board S picture = Return board → board_wf board.
Proof.
  unfold make_board. set (pic := without_whitespace _). set (N := Z.sqrt _).
  case_decide as Hlen; [|done]. intros [= <-].
  assert (0 ≤ N) as HN by apply Z.sqrt_nonneg.
  split; simpl.
  - done.
  - intros c. rewrite lookup_units_for. unfold cells; simpl.
    rewrite elem_of_list_to_set.
    case_decide; split; intros Hc; try done; by destruct Hc.
  - intros c us. rewrite lookup_units_for. case_decide; [|done].
    intros [= <-] U. rewrite list_elem_of_filter. tauto.
  - intros c. rewrite cells_spec; simpl. intros Hc.
    exists (list_to_set ((λ c', N * (c / N) + c') <$> range N)). split.
    + rewrite !elem_of_app. right; left.
      apply list_elem_of_fmap. exists (c / N). split; [done|].
      unfold range. apply elem_of_seqZ.
      split; [apply Z.div_pos; lia|]. apply Z.div_lt_upper_bound; lia.
    + apply elem_of_list_to_set, list_elem_of_fmap. exists (c mod N).
      split; [apply Z.div_mod; lia|]. unfold range. apply elem_of_seqZ.
      pose proof (Z.mod_pos_bound c N). lia.
Qed.

Lemma elem_of_insert_by_len U u l :
  U ∈ insert_by_len u l ↔ U = u ∨ U ∈ l.
Proof.
  induction l as [|v l IH]; simpl.
  - by rewrite elem_of_cons.
  - case_decide; rewrite !elem_of_cons; [done|]. rewrite IH. tauto.
Qed.

Lemma elem_of_sorted_by_len U l : U ∈ sorted_by_len l ↔ U ∈ l.
Proof.
  induction l as [|v l IH]; simpl; [done|].
  by rewrite elem_of_insert_by_len, IH, elem_of_cons.
Qed.

Lemma initial_state_unknowns board :
  State.unknowns (initial_state board) = cells board.
Proof. unfold initial_state, cells; simpl. by rewrite Z.pow_2_r. Qed.

Lemma initial_state_inv board : search_inv board (initial_state board).
Proof.
  split.
  - split; [set_solver|by rewrite initial_state_unknowns|set_solver].
  - intros c Hc. set_solver.
  - intros U HU. by apply elem_of_sorted_by_len.
  - intros U HU. left. by apply elem_of_sorted_by_len.
Qed.

Lemma size_cells board :
  size (cells board) = Z.to_nat (Board.N board * Board.N board).
Proof.
  unfold cells, range. rewrite size_list_to_set by apply NoDup_seqZ.
  apply length_seqZ.
Qed.

(** What [is_solution] checks. *)
Lemma is_solution_true board X :
  is_solution board X = Return true →
  (∀ U, U ∈ Board.units board → Z.of_nat (size (X ∩ U)) = Board.S board)
  ∧ (∀ c n, c ∈ X → n ∈ neighbors c (Board.N board) → n ∉ X).
Proof.
  unfold is_solution. destruct (forallb _ _) eqn:Hall; [|done].
  rewrite forallb_forall in Hall. intros H. split.
  - intros U HU%list_elem_of_In. by apply Hall, bool_decide_eq_true in HU.
  - case_decide as Hempty; [set_solver|]. case_decide; [done|].
    injection H as H. apply bool_decide_eq_true in H.
    intros c n Hc Hn HnX. by apply (H n HnX c Hc).
Qed.

Lemma initial_state_agrees board X :
  valid_placement board X → agrees board X (initial_state board).
Proof.
  intros [Hsub _]. split.
  - split; [set_solver|]. rewrite initial_state_unknowns. set_solver.
  - apply initial_state_inv.
Qed.

(** ** More fuel changes nothing *)

Lemma each_ext_inv {A} (Inv : State.t → Prop)
    (f g : A → State.t → outcome * State.t) l st :
  Inv st →
  (∀ x st, Inv st → f x st = g x st) →
  (∀ x st st', Inv st → f x st = (Success, st') → Inv st') →
  each f l st = each g l st.
Proof.
  intros Hst Hfg Hpres. revert st Hst.
  induction l as [|x l IH]; intros st Hst; simpl; [done|].
  rewrite <- (Hfg x st Hst). pose proof (Hpres x st) as Hp.
  destruct (f x st) as [[] mid]; try done. apply IH. by apply Hp.
Qed.

Definition same_below (n : nat) (f g : Z → State.t → outcome * State.t) : Prop :=
  ∀ c st, (size (State.unknowns st) < n)%nat → f c st = g c st.

Lemma put_star_with_same n f g cell board st :
  (∀ c st, evolves st (f c st).2) → same_below n f g →
  (size (State.unknowns st) ≤ n)%nat →
  put_star_with f cell board st = put_star_with g cell board st.
Proof.
  intros Hev Hfg Hn. unfold put_star_with.
  case_decide; [done|]. case_decide as Hunk; [|done].
  set (st1 := State.mk _ _ _).
  destruct (Board.units_for board !! cell); [|done].
  destruct (existsb _ _); [done|]. case_decide; [done|].
  apply (each_ext_inv (λ cur, (size (State.unknowns cur) < n)%nat)).
  - unfold st1; simpl. pose proof (size_unknowns_removed _ _ Hunk). lia.
  - intros c cur Hcur. case_decide; [done|by apply Hfg].
  - intros c cur cur' Hcur. case_decide; [done|]. intros Hc.
    pose proof (Hev c cur) as He. rewrite Hc in He.
    apply size_unknowns_evolves in He. simpl in He. lia.
Qed.

Lemma put_blank_with_same n f g cell board st :
  (∀ c st, evolves st (f c st).2) → same_below n f g →
  (size (State.unknowns st) ≤ n)%nat →
  put_blank_with f cell board st = put_blank_with g cell board st.
Proof.
  intros Hev Hfg Hn. unfold put_blank_with.
  case_decide as Hunk; [|done].
  set (st1 := State.mk _ _ _).
  destruct (Board.units_for board !! cell); [|done].
  assert (∀ l cur, (size (State.unknowns cur) < n)%nat →
                   each f l cur = each g l cur) as Hstars.
  { intros l0 cur Hcur.
    apply (each_ext_inv (λ cur, (size (State.unknowns cur) < n)%nat)); [done| |].
    - intros c sc Hsc. by apply Hfg.
    - intros c sc sc' Hsc Hc. pose proof (Hev c sc) as He. rewrite Hc in He.
      apply size_unknowns_evolves in He. simpl in He. lia. }
  apply (each_ext_inv (λ cur, (size (State.unknowns cur) < n)%nat)).
  - unfold st1; simpl. pose proof (size_unknowns_removed _ _ Hunk). lia.
  - intros U cur Hcur. simpl. case_decide; [done|].
    case_decide; [|done]. by apply Hstars.
  - intros U cur cur' Hcur. simpl. case_decide; [done|].
    case_decide; [|by intros; simplify_eq]. intros Hc.
    eapply each_evolves in Hc; [|done].
    apply size_unknowns_evolves in Hc. lia.
Qed.

Lemma put_fuel_stable board fuel :
  (∀ fuel' cell st, (size (State.unknowns st) ≤ fuel)%nat → (fuel ≤ fuel')%nat →
     put_star fuel' cell board st = put_star fuel cell board st)
  ∧ (∀ fuel' cell st, (size (State.unknowns st) ≤ fuel)%nat → (fuel ≤ fuel')%nat →
     put_blank fuel' cell board st = put_blank fuel cell board st).
Proof.
  induction fuel as [|f [IHs IHb]]; split; intros fuel' cell st Hn Hle.
  - destruct fuel' as [|f']; [done|]. simpl.
    apply (put_star_with_same 0); [|intros c sc Hc; lia|done].
    intros c sc. apply put_evolves.
  - destruct fuel' as [|f']; [done|]. simpl.
    apply (put_blank_with_same 0); [|intros c sc Hc; lia|done].
    intros c sc. apply put_evolves.
  - destruct fuel' as [|f']; [lia|]. simpl.
    apply (put_star_with_same (Datatypes.S f)); [| |done].
    + intros c sc. apply put_evolves.
    + intros c sc Hc. apply IHb; lia.
  - destruct fuel' as [|f']; [lia|]. simpl.
    apply (put_blank_with_same (Datatypes.S f)); [| |done].
    + intros c sc. apply put_evolves.
    + intros c sc Hc. apply IHs; lia.
Qed.

(** The pending units of the states of a search. *)
Lemma search_with_units_suffix rec fuel board st :
  (∀ g, Forall (λ y, ∃ k, State.units y = drop k (State.units g)) (rec g).1) →
  Forall (λ y, ∃ k, State.units y = drop k (State.units st))
         (search_with rec (λ c st, put_star fuel c board st) board st).1.
Proof.
  intros Hrec. unfold search_with. simpl.
  destruct (discard_filled_drop board (State.stars st) (State.units st))
    as [k Hk].
  destruct (discard_filled _ _ _) as [|u rest] eqn:Hd.
  - simpl. constructor; [by exists k|constructor].
  - apply yield_from_each_Forall. intros c _. unfold guess.
    rewrite copy_state_id. set (st0 := State.mk _ _ _).
    pose proof (proj1 (put_evolves fuel board) c st0) as [Hu _].
    destruct (put_star fuel c board st0) as [[] g]; simpl in *;
      try constructor.
    eapply Forall_impl; [apply Hrec|]. simpl. intros y [k' Hy].
    exists (k + k')%nat. by rewrite Hy, Hu, Hk, drop_drop.
Qed.

Lemma search_units_suffix fuel board st :
  Forall (λ y, ∃ k, State.units y = drop k (State.units st))
         (search fuel board st).1.
Proof.
  revert st. induction fuel as [|f IH]; intros st; rewrite search_unfold;
    apply search_with_units_suffix; [|done].
  intros g. constructor.
Qed.





(** ** Shared consequences *)

Lemma initial_state_size board :
  size (State.unknowns (initial_state board))
  = Z.to_nat (Board.N board * Board.N board).
Proof. by rewrite initial_state_unknowns, size_cells. Qed.

Lemma solved_valid board st :
  board_wf board → solved board st → valid_placement board (State.stars st).
Proof.
  intros Hwf [Hinv Hnil]. split.
  - apply (wf_stars _ _ (si_wf _ _ Hinv)).
  - by apply search_inv_is_solution.
Qed.

Lemma yielded_valid board fuel :
  board_wf board →
  Forall (λ st, valid_placement board (State.stars st))
         (search fuel board (initial_state board)).1.
Proof.
  intros Hwf. eapply Forall_impl.
  - apply search_sound; [done|apply initial_state_inv].
  - intros st. by apply solved_valid.
Qed.

Lemma valid_yielded board fuel X :
  board_wf board → (Z.to_nat (Board.N board * Board.N board) ≤ fuel)%nat →
  valid_placement board X →
  ∃ y, y ∈ (search fuel board (initial_state board)).1 ∧ State.stars y = X.
Proof.
  intros Hwf Hfuel HX. destruct (is_solution_true _ _ (proj2 HX)) as [HU HA].
  apply search_complete; try done.
  - apply initial_state_inv.
  - by apply initial_state_agrees.
  - by rewrite initial_state_size.
Qed.

Lemma search_initial_ends board fuel :
  board_wf board → (Z.to_nat (Board.N board * Board.N board) ≤ fuel)%nat →
  (search fuel board (initial_state board)).2 = Return ().
Proof.
  intros Hwf Hfuel. apply search_ends; [done| |by rewrite initial_state_size].
  apply initial_state_inv.
Qed.

Lemma no_yield_no_placement board fuel :
  board_wf board → (Z.to_nat (Board.N board * Board.N board) ≤ fuel)%nat →
  (search fuel board (initial_state board)).1 = [] →
  ∀ X, ¬ valid_placement board X.
Proof.
  intros Hwf Hfuel Hnil X HX.
  destruct (valid_yielded board fuel X Hwf Hfuel HX) as (y & Hy & _).
  rewrite Hnil in Hy. by apply elem_of_nil in Hy.
Qed.

Lemma make_board_returns (S0 : Z) (picture : string) :
  let len := Z.of_nat (length (without_whitespace picture)) in
  len = Z.sqrt len * Z.sqrt len →
  make_board S0 picture = Return (board_of (make_board S0 picture)).
Proof.
  intros len Hlen. unfold make_board. fold len. by rewrite decide_True.
Qed.

Lemma forallb_bool_decide {A} (P : A → Prop) `{!∀ x, Decision (P x)} l :
  forallb (λ x, bool_decide (P x)) l = true → Forall P l.
Proof.
  rewrite forallb_forall, Forall_forall. intros Hall x Hx%list_elem_of_In.
  by apply (bool_decide_eq_true_1 (P x)), Hall.
Qed.

(** ** The claims *)

(** C1.  Soundness of the search: on a board built by [make_board], every
    state yielded by [search] from the initial state passes [is_solution]:
    every unit holds exactly [S] of its stars, and no star is in the
    neighbour set of a star.  With fuel for [N * N] levels the search runs
    to its end, so these are all the states it yields. *)
Theorem search_yields_solutions (S0 : Z) (picture : string)
    (board : Board.t) (fuel : nat) :
  make_board S0 picture = Return board →
  Forall (λ st,
      is_solution board (State.stars st) = Return true
      ∧ (∀ U, U ∈ Board.units board →
           Z.of_nat (size (State.stars st ∩ U)) = Board.S board)
      ∧ (∀ c1 c2, c1 ∈ State.stars st → c2 ∈ State.stars st →
           c1 ∉ neighbors c2 (Board.N board)))
    (search fuel board (initial_state board)).1
  ∧ ((Z.to_nat (Board.N board * Board.N board) ≤ fuel)%nat →
     (search fuel board (initial_state board)).2 = Return ()).
Proof.
  intros Hwf%make_board_wf. split; [|by apply search_initial_ends].
  eapply Forall_impl; [by apply yielded_valid|].
  intros st [_ Hsol]. split; [done|].
  destruct (is_solution_true _ _ Hsol) as [HU HA]. split; [done|].
  intros c1 c2 H1 H2 Hn. by apply (HA c2 c1).
Qed.

(** C2, as amended.  On a board that has no valid placement, [search]
    yields nothing and ends normally, and [solve] raises [StopIteration]. *)
Theorem unsatisfiable_board (S0 : Z) (picture : string)
    (board : Board.t) (fuel : nat) :
  make_board S0 picture = Return board →
  (∀ X, ¬ valid_placement board X) →
  (Z.to_nat (Board.N board * Board.N board) ≤ fuel)%nat →
  search fuel board (initial_state board) = ([], Return ())
  ∧ solve fuel board = Raise StopIteration.
Proof.
  intros Hwf%make_board_wf Hnone Hfuel.
  pose proof (yielded_valid board fuel Hwf) as Hval.
  pose proof (search_initial_ends board fuel Hwf Hfuel) as Hend.
  unfold solve.
  destruct (search fuel board (initial_state board)) as [[|y l] r];
    simpl in *; subst r.
  - done.
  - exfalso. apply Forall_cons in Hval as [Hy _]. by apply (Hnone _ Hy).
Qed.

(** C3, as amended.  [put_star] on a cell that is already a star, and
    [put_blank] on a cell that is not unknown (a star or a confirmed
    blank), return the state unchanged; they do not raise. *)
Theorem put_on_resolved_cell (fuel : nat) (cell : Z) (board : Board.t)
    (st : State.t) :
  (cell ∈ State.stars st → put_star fuel cell board st = (Success, st))
  ∧ (cell ∉ State.unknowns st → put_blank fuel cell board st = (Success, st)).
Proof.
  split; intros Hc; destruct fuel; simpl.
  - unfold put_star_with. by rewrite decide_True.
  - unfold put_star_with. by rewrite decide_True.
  - unfold put_blank_with. by rewrite decide_False.
  - unfold put_blank_with. by rewrite decide_False.
Qed.


(** C5, as amended.  When [put_blank] returns success, every unit of the
    board that met its quota before the call (at most [S] stars, at least
    [S] stars and unknowns together) meets it in the resulting state; so do,
    in particular, the units that contain the cell. *)
Theorem put_blank_keeps_quota (S0 : Z) (picture : string) (board : Board.t)
    (fuel : nat) (cell : Z) (st st' : State.t) (U : gset Z) :
  make_board S0 picture = Return board →
  put_blank fuel cell board st = (Success, st') →
  U ∈ Board.units board →
  quota board U st → quota board U st'.
Proof.
  intros Hwf%make_board_wf Hput HU [Hcount Hslack].
  apply (proj2 (put_propagates board Hwf fuel)) in Hput as [(_ & _ & Hq) _].
  destruct (Hq U HU) as [Hc Hs]. split.
  - destruct Hc as [?|Hc]; [done|]. by rewrite Hc.
  - destruct Hs as [?|Hs]; [done|]. by rewrite Hs.
Qed.

Lemma two_yields (l : list State.t) (y1 y2 : State.t) :
  y1 ∈ l → y2 ∈ l → y1 ≠ y2 → (2 ≤ length l)%nat.
Proof.
  destruct l as [|a [|b l]]; simpl; [by intros ?%elem_of_nil| |lia].
  intros ->%list_elem_of_singleton ->%list_elem_of_singleton. done.
Qed.

(** C6, as amended.  With enough fuel, the star sets of the states that
    [search] yields from the initial state are exactly the valid placements
    of the board.  A board with two distinct placements yields at least two
    results.  A board with exactly one placement yields at least one result,
    and every result is that placement; it may be yielded more than once. *)
Theorem search_yields_placements (S0 : Z) (picture : string)
    (board : Board.t) (fuel : nat) :
  make_board S0 picture = Return board →
  (Z.to_nat (Board.N board * Board.N board) ≤ fuel)%nat →
  let yields := (search fuel board (initial_state board)).1 in
  (∀ X, valid_placement board X ↔ ∃ y, y ∈ yields ∧ State.stars y = X)
  ∧ (∀ X1 X2, valid_placement board X1 → valid_placement board X2 →
       X1 ≠ X2 → (2 ≤ length yields)%nat)
  ∧ (∀ X, valid_placement board X →
       (∀ X', valid_placement board X' → X' = X) →
       yields ≠ [] ∧ Forall (λ y, State.stars y = X) yields).
Proof.
  intros Hwf%make_board_wf Hfuel yields.
  pose proof (yielded_valid board fuel Hwf) as Hval. fold yields in Hval.
  assert (∀ X, valid_placement board X →
               ∃ y, y ∈ yields ∧ State.stars y = X) as Hcomp.
  { intros X HX. by apply valid_yielded. }
  split; [|split].
  - intros X. split; [apply Hcomp|]. intros (y & Hy & <-).
    rewrite Forall_forall in Hval. by apply Hval.
  - intros X1 X2 (y1 & Hy1 & <-)%Hcomp (y2 & Hy2 & <-)%Hcomp Hne.
    apply (two_yields yields y1 y2); [done|done|]. by intros ->.
  - intros X HX Huniq. split.
    + destruct (Hcomp X HX) as (y & Hy & _). intros Hnil.
      rewrite Hnil in Hy. by apply elem_of_nil in Hy.
    + eapply Forall_impl; [exact Hval|]. intros y Hy. simpl in Hy. by apply Huniq.
Qed.

(** C7.  Propagation terminates: with the unknowns among the [N * N] cells
    of the board, [N * N] levels of calls below the first are enough for
    [put_star] and [put_blank] to end, and more fuel gives the same
    result. *)
Theorem propagation_terminates (board : Board.t) (st : State.t) (cell : Z)
    (fuel : nat) :
  State.unknowns st ⊆ cells board →
  (Z.to_nat (Board.N board * Board.N board) ≤ fuel)%nat →
  (put_star fuel cell board st).1 ≠ NoFuel
  ∧ (put_blank fuel cell board st).1 ≠ NoFuel
  ∧ put_star fuel cell board st
    = put_star (Z.to_nat (Board.N board * Board.N board)) cell board st
  ∧ put_blank fuel cell board st
    = put_blank (Z.to_nat (Board.N board * Board.N board)) cell board st.
Proof.
  intros Hsub Hfuel.
  assert (size (State.unknowns st)
          ≤ Z.to_nat (Board.N board * Board.N board))%nat as Hsize.
  { rewrite <- size_cells. by apply subseteq_size. }
  split; [|split; [|split]].
  - apply put_fueled. lia.
  - apply put_fueled. lia.
  - by apply put_fuel_stable.
  - by apply put_fuel_stable.
Qed.


(** C9.  Propagation leaves the pending units of the state as they are,
    whatever its outcome.  Only [search] removes units, and only from the
    front: its loop leaves a suffix of the list, and the pending units of
    every state it yields are a suffix of those it was given. *)
Theorem propagation_frame (fuel : nat) (cell : Z) (board : Board.t)
    (st : State.t) :
  State.units (put_star fuel cell board st).2 = State.units st
  ∧ State.units (put_blank fuel cell board st).2 = State.units st
  ∧ (∃ k, discard_filled board (State.stars st) (State.units st)
          = drop k (State.units st))
  ∧ Forall (λ y, ∃ k, State.units y = drop k (State.units st))
           (search fuel board st).1.
Proof.
  split; [|split; [|split]].
  - apply (proj1 (put_evolves fuel board)).
  - apply (proj2 (put_evolves fuel board)).
  - apply discard_filled_drop.
  - apply search_units_suffix.
Qed.

(** C10.  [make_board] raises [AssertionError] exactly when the number of
    characters of the picture that are not whitespace is not a perfect
    square, that is, differs from [N * N] for [N] its integer square root.
    Nothing else is checked: when the number is a square, a board is
    returned whatever the characters are. *)
Theorem make_board_assertion (S0 : Z) (picture : string) :
  let len := Z.of_nat (length (without_whitespace picture)) in
  (make_board S0 picture = Raise AssertionError
     ↔ len ≠ Z.sqrt len * Z.sqrt len)
  ∧ (len ≠ Z.sqrt len * Z.sqrt len ↔ ¬ ∃ n, len = n * n)
  ∧ ((∃ n, len = n * n) →
     ∃ board, make_board S0 picture = Return board
              ∧ Board.N board = Z.sqrt len ∧ Board.S board = S0
              ∧ Board.pic board = without_whitespace picture).
Proof.
  intros len.
  assert ((∃ n, len = n * n) ↔ len = Z.sqrt len * Z.sqrt len) as Hsq.
  { split; [|by exists (Z.sqrt len)]. intros [n Hn].
    rewrite Hn at 2 3. rewrite <- (Z.abs_square n), Z.sqrt_square by lia.
    rewrite Z.abs_square. done. }
  unfold make_board. fold len. split; [|split].
  - case_decide; split; intros; done.
  - rewrite Hsq. done.
  - intros Hn%Hsq. rewrite decide_True by done. eexists. split; [done|]. done.
Qed.

End Properties.

(** ** The functions on small inputs *)

Example neighbors_corner : neighbors 0 5 = {[1; 5; 6]}.
Proof. compute_done. Qed.

Example neighbors_middle : neighbors 12 5 = {[6; 7; 8; 11; 13; 16; 17; 18]}.
Proof. compute_done. Qed.

Example neighbors_one_cell : neighbors 0 1 = ∅.
Proof. compute_done. Qed.

Example make_board_three_cells :
  @make_board ascending_order 1 "a b c" = Raise AssertionError.
Proof. vm_compute. reflexivity. Qed.

Example board5x5_size :
  Board.N board5x5 = 5 ∧ length (Board.units board5x5) = 15%nat.
Proof. split; vm_compute; reflexivity. Qed.

Example board5x5_search :
  (λ st, elements (State.stars st))
    <$> (@search ascending_order 25 board5x5 (initial_state board5x5)).1
  = [[23; 15; 9; 12; 1]; [15; 13; 22; 6; 4]].
Proof. vm_compute. reflexivity. Qed.

(** On the 2×2 board of four boxes, [put_blank(3)] on the initial state
    calls [put_star(1)], which calls [put_blank(0)], which calls
    [put_star(2)], which calls [put_blank(0)]: four levels below the first
    call, as many as the board has cells, and no fewer will do. *)
Example propagation_depth_attained :
  (@put_blank ascending_order 3 3 board2x2_boxes
     (initial_state board2x2_boxes)).1 = NoFuel
  ∧ (@put_blank ascending_order 4 3 board2x2_boxes
       (initial_state board2x2_boxes)).1 = Failure.
Proof. split; vm_compute; reflexivity. Qed.

(** ** The claims on the example boards *)

Lemma board5x5_made :
  @make_board ascending_order 1 board5x5_picture = Return board5x5.
Proof. apply make_board_returns. vm_compute. reflexivity. Qed.

Lemma board_one_cell_made :
  @make_board ascending_order 2 "a" = Return board_one_cell.
Proof. apply make_board_returns. vm_compute. reflexivity. Qed.

Lemma board2x2_made :
  @make_board ascending_order 1 "aa bb" = Return board2x2.
Proof. apply make_board_returns. vm_compute. reflexivity. Qed.

Lemma board8x8_made :
  @make_board ascending_order 2 board8x8_picture = Return board8x8.
Proof. apply make_board_returns. vm_compute. reflexivity. Qed.

Lemma board_one_cell_unsatisfiable X : ¬ valid_placement board_one_cell X.
Proof.
  apply (@no_yield_no_placement ascending_order board_one_cell 1).
  - exact (make_board_wf _ _ _ board_one_cell_made).
  - vm_compute. lia.
  - vm_compute. reflexivity.
Qed.

(** C1 on the 5×5 board of the notebook. *)
Lemma search_yields_solutions_witness :
  @make_board ascending_order 1 board5x5_picture = Return board5x5
  ∧ Forall (λ st,
      is_solution board5x5 (State.stars st) = Return true
      ∧ (∀ U, U ∈ Board.units board5x5 →
           Z.of_nat (size (State.stars st ∩ U)) = Board.S board5x5)
      ∧ (∀ c1 c2, c1 ∈ State.stars st → c2 ∈ State.stars st →
           c1 ∉ neighbors c2 (Board.N board5x5)))
    (@search ascending_order 25 board5x5 (initial_state board5x5)).1
  ∧ ((Z.to_nat (Board.N board5x5 * Board.N board5x5) ≤ 25)%nat →
     (@search ascending_order 25 board5x5 (initial_state board5x5)).2
     = Return ()).
Proof.
  split; [apply board5x5_made|].
  apply (@search_yields_solutions ascending_order 1 board5x5_picture).
  apply make_board_returns. vm_compute. reflexivity.
Defined.

(** C2 as stated fails: the board of one cell that asks for two stars has
    no placement, [search] yields nothing, and [solve] does not return: it
    raises [StopIteration]. *)
Lemma solve_raises_on_unsatisfiable :
  @make_board ascending_order 2 "a" = Return board_one_cell
  ∧ (∀ X, ¬ valid_placement board_one_cell X)
  ∧ (@search ascending_order 1 board_one_cell
       (initial_state board_one_cell)).1 = []
  ∧ @solve ascending_order 1 board_one_cell = Raise StopIteration.
Proof.
  split; [apply board_one_cell_made|].
  split; [apply board_one_cell_unsatisfiable|].
  split; vm_compute; reflexivity.
Qed.

(** C2, as amended, on that board. *)
Lemma unsatisfiable_board_witness :
  @search ascending_order 1 board_one_cell (initial_state board_one_cell)
  = ([], Return ())
  ∧ @solve ascending_order 1 board_one_cell = Raise StopIteration.
Proof.
  apply (@unsatisfiable_board ascending_order 2 "a").
  - apply make_board_returns. vm_compute. reflexivity.
  - apply board_one_cell_unsatisfiable.
  - vm_compute. lia.
Defined.

(** C3 as stated fails: on the board of one cell that asks for no star,
    [put_blank(0)] succeeds on the initial state and leaves cell 0 a
    confirmed blank; [put_star(0)] on that state raises [KeyError]. *)
Lemma put_star_on_blank_raises :
  @put_blank ascending_order 1 0 board_no_star (initial_state board_no_star)
  = (Success, state_no_unknown)
  ∧ blank 0 state_no_unknown
  ∧ @put_star ascending_order 1 0 board_no_star state_no_unknown
    = (Raised KeyError, state_no_unknown).
Proof.
  split; [vm_compute; reflexivity|]. split; [|vm_compute; reflexivity].
  split; simpl; set_solver.
Qed.



(** C5 as stated fails: on the board of one cell that asks for two stars,
    [put_star(0)] succeeds on the initial state; on the state it leaves,
    [put_blank(0)] returns success, and the unit of cell 0 holds one star
    and no unknown, fewer than the two asked. *)
Lemma put_blank_succeeds_below_quota :
  @put_star ascending_order 1 0 board_one_cell (initial_state board_one_cell)
  = (Success, state_one_star)
  ∧ @put_blank ascending_order 1 0 board_one_cell state_one_star
    = (Success, state_one_star)
  ∧ Exists (λ U, 0 ∈ U ∧ slack U state_one_star < Board.S board_one_cell)
           (Board.units board_one_cell).
Proof.
  split; [vm_compute; reflexivity|]. split; [vm_compute; reflexivity|].
  apply Exists_exists. exists {[0]}. split; [|split].
  - compute_done.
  - set_solver.
  - by vm_compute.
Qed.

(** C5, as amended, on the 5×5 board: a blank in cell 0 of the initial
    state, and the first column. *)
Lemma put_blank_keeps_quota_witness :
  quota board5x5 (list_to_set [0; 5; 10; 15; 20])
        (@put_blank ascending_order 1 0 board5x5 (initial_state board5x5)).2.
Proof.
  apply (@put_blank_keeps_quota ascending_order 1 board5x5_picture board5x5
           1 0 (initial_state board5x5)).
  - apply board5x5_made.
  - vm_compute. reflexivity.
  - compute_done.
  - split; by vm_compute.
Defined.

Lemma board8x8_yields :
  Forall (λ y, State.stars y = placement8x8)
         (@search ascending_order 64 board8x8 (initial_state board8x8)).1.
Proof.
  apply (forallb_bool_decide (λ y, State.stars y = placement8x8)).
  vm_compute. reflexivity.
Qed.

(** C6 as stated fails: the 8×8 board has exactly one valid placement, and
    [search] yields it 64 times. *)
Lemma unique_placement_yielded_again :
  @make_board ascending_order 2 board8x8_picture = Return board8x8
  ∧ valid_placement board8x8 placement8x8
  ∧ (∀ X, valid_placement board8x8 X → X = placement8x8)
  ∧ length (@search ascending_order 64 board8x8 (initial_state board8x8)).1
    = 64%nat.
Proof.
  pose proof (make_board_wf _ _ _ board8x8_made) as Hwf.
  assert (∀ X, valid_placement board8x8 X → X = placement8x8) as Huniq.
  { intros X HX.
    destruct (@valid_yielded ascending_order board8x8 64 X Hwf) as (y & Hy & <-);
      [vm_compute; lia|done|].
    pose proof board8x8_yields as Hall. rewrite Forall_forall in Hall.
    by apply Hall. }
  split; [apply board8x8_made|]. split; [|split; [exact Huniq|]].
  - pose proof (@yielded_valid ascending_order board8x8 64 Hwf) as Hval.
    pose proof board8x8_yields as Hall.
    destruct (@search ascending_order 64 board8x8 (initial_state board8x8)).1
      as [|y l] eqn:Hl; [|].
    + apply (f_equal length) in Hl. vm_compute in Hl. discriminate.
    + apply Forall_cons in Hval as [Hy _], Hall as [<- _]. exact Hy.
  - vm_compute. reflexivity.
Qed.

(** C6, as amended, on the 5×5 board of the notebook. *)
Lemma search_yields_placements_witness :
  let yields :=
    (@search ascending_order 25 board5x5 (initial_state board5x5)).1 in
  (∀ X, valid_placement board5x5 X ↔ ∃ y, y ∈ yields ∧ State.stars y = X)
  ∧ (∀ X1 X2, valid_placement board5x5 X1 → valid_placement board5x5 X2 →
       X1 ≠ X2 → (2 ≤ length yields)%nat)
  ∧ (∀ X, valid_placement board5x5 X →
       (∀ X', valid_placement board5x5 X' → X' = X) →
       yields ≠ [] ∧ Forall (λ y, State.stars y = X) yields).
Proof.
  apply (@search_yields_placements ascending_order 1 board5x5_picture).
  - apply board5x5_made.
  - vm_compute. lia.
Defined.

(** C7 on the 5×5 board: a star in cell 12 of the initial state. *)
Lemma propagation_terminates_witness :
  (@put_star ascending_order 25 12 board5x5 (initial_state board5x5)).1 ≠ NoFuel
  ∧ (@put_blank ascending_order 25 12 board5x5 (initial_state board5x5)).1
    ≠ NoFuel
  ∧ @put_star ascending_order 25 12 board5x5 (initial_state board5x5)
    = @put_star ascending_order
        (Z.to_nat (Board.N board5x5 * Board.N board5x5)) 12 board5x5
        (initial_state board5x5)
  ∧ @put_blank ascending_order 25 12 board5x5 (initial_state board5x5)
    = @put_blank ascending_order
        (Z.to_nat (Board.N board5x5 * Board.N board5x5)) 12 board5x5
        (initial_state board5x5).
Proof.
  apply (@propagation_terminates ascending_order board5x5
           (initial_state board5x5) 12 25).
  - by rewrite initial_state_unknowns.
  - vm_compute. lia.
Defined.


(** * More of the notebook *)

(** ** The neighbours of a cell *)

(** The offsets [neighbors] adds to a cell. *)
Lemma neighbors_offsets (cell N n : Z) :
  n ∈ neighbors cell N ↔
  ∃ dx dy,
    (dx = 0 ∨ (dx = 1 ∧ cell mod N ≠ N - 1) ∨ (dx = -1 ∧ cell mod N ≠ 0))
    ∧ (dy = 0 ∨ (dy = N ∧ cell + N < N ^ 2) ∨ (dy = - N ∧ cell >= N))
    ∧ (dx ≠ 0 ∨ dy ≠ 0)
    ∧ n = cell + dx + dy.
Proof.
  unfold neighbors. rewrite elem_of_list_to_set, list_elem_of_bind. split.
  - intros (dy & Hn & Hdy). apply list_elem_of_bind in Hn as (dx & Hn & Hdx).
    destruct (decide (dx ≠ 0 ∨ dy ≠ 0)) as [Hnz|]; [|by apply elem_of_nil in Hn].
    apply list_elem_of_singleton in Hn. exists dx, dy.
    split; [|split; [|done]].
    + rewrite !elem_of_cons, elem_of_nil in Hdx.
      clear Hn Hnz Hdy.
      destruct Hdx as [->|[->|[->|[]]]]; [by left| |]; case_decide;
        [right; left; by split|by left|right; right; by split|by left].
    + rewrite !elem_of_cons, elem_of_nil in Hdy.
      clear Hn Hnz Hdx.
      destruct Hdy as [->|[->|[->|[]]]]; [by left| |]; case_decide;
        [right; left; by split|by left|right; right; by split|by left].
  - intros (dx & dy & Hdx & Hdy & Hnz & ->). exists dy. split.
    + apply list_elem_of_bind. exists dx. split.
      * rewrite decide_True by done. by apply list_elem_of_singleton.
      * rewrite !elem_of_cons.
        destruct Hdx as [->|[[-> ?]|[-> ?]]]; [by left| |].
        -- right; left. by rewrite decide_True.
        -- right; right; left. by rewrite decide_True.
    + rewrite !elem_of_cons.
      destruct Hdy as [->|[[-> ?]|[-> ?]]]; [by left| |].
      * right; left. by rewrite decide_True.
      * right; right; left. by rewrite decide_True.
Qed.

Lemma grid_mod (N r c : Z) : 0 ≤ c < N → (N * r + c) mod N = c.
Proof.
  intros Hc. rewrite Z.add_comm, Z.mul_comm, Z_mod_plus_full.
  by apply Z.mod_small.
Qed.

Lemma grid_div (N r c : Z) : 0 ≤ c < N → (N * r + c) / N = r.
Proof.
  intros Hc. rewrite Z.add_comm, Z.mul_comm, Z_div_plus_full by lia.
  rewrite Z.div_small by done. lia.
Qed.

(** The neighbours of a cell, by row and column. *)
Lemma elem_of_neighbors (N r c n : Z) :
  0 ≤ r < N → 0 ≤ c < N →
  n ∈ neighbors (N * r + c) N ↔
  ∃ r' c', 0 ≤ r' < N ∧ 0 ≤ c' < N ∧ n = N * r' + c'
           ∧ -1 ≤ r' - r ≤ 1 ∧ -1 ≤ c' - c ≤ 1 ∧ (r' ≠ r ∨ c' ≠ c).
Proof.
  intros Hr Hc. rewrite neighbors_offsets, grid_mod, Z.pow_2_r by done.
  split.
  - intros (dx & dy & Hdx & Hdy & Hnz & ->).
    destruct Hdx as [->|[[-> ?]|[-> ?]]], Hdy as [->|[[-> ?]|[-> ?]]];
      first
        [ exists r, c; split; [lia|]; split; [lia|]; split; [ring|lia]
        | exists r, (c + 1); split; [lia|]; split; [lia|]; split; [ring|lia]
        | exists r, (c - 1); split; [lia|]; split; [lia|]; split; [ring|lia]
        | exists (r + 1), c; split; [nia|]; split; [lia|]; split; [ring|lia]
        | exists (r - 1), c; split; [nia|]; split; [lia|]; split; [ring|lia]
        | exists (r + 1), (c + 1); split; [nia|]; split; [lia|]; split; [ring|lia]
        | exists (r + 1), (c - 1); split; [nia|]; split; [lia|]; split; [ring|lia]
        | exists (r - 1), (c + 1); split; [nia|]; split; [lia|]; split; [ring|lia]
        | exists (r - 1), (c - 1); split; [nia|]; split; [lia|]; split; [ring|lia] ].
  - intros (r' & c' & Hr' & Hc' & -> & Hdr & Hdc & Hne).
    exists (c' - c), (N * (r' - r)). split; [lia|]. split; [|split; [nia|ring]].
    assert (r' - r = 0 ∨ r' - r = 1 ∨ r' - r = -1) as [H0|[H1|H1]] by lia.
    + left. rewrite H0. ring.
    + right; left. split; [rewrite H1; ring|nia].
    + right; right. split; [rewrite H1; ring|nia].
Qed.

Lemma size_list_to_set_le (l : list Z) :
  (size (list_to_set l : gset Z) ≤ length l)%nat.
Proof.
  induction l as [|x l IH]; [done|].
  rewrite list_to_set_cons, size_union_alt, size_singleton. simpl.
  assert (size (list_to_set l ∖ {[x]} : gset Z) ≤ size (list_to_set l : gset Z))%nat
    by (apply subseteq_size; set_solver).
  lia.
Qed.

Lemma cell_grid (N a : Z) :
  0 ≤ N → 0 ≤ a < N * N →
  0 ≤ a / N < N ∧ 0 ≤ a mod N < N ∧ a = N * (a / N) + a mod N.
Proof.
  intros HN Ha. assert (0 < N) by nia.
  split; [|split].
  - split; [apply Z.div_pos; lia|apply Z.div_lt_upper_bound; lia].
  - by apply Z.mod_pos_bound.
  - apply Z.div_mod. lia.
Qed.

Lemma neighbors_apart (N c1 c2 : Z) :
  0 ≤ N → 0 ≤ c1 < N * N → 0 ≤ c2 < N * N →
  c1 ∈ neighbors c2 N ↔
  c1 ≠ c2 ∧ -1 ≤ c1 / N - c2 / N ≤ 1 ∧ -1 ≤ c1 mod N - c2 mod N ≤ 1.
Proof.
  intros HN H1 H2.
  destruct (cell_grid N c1 HN H1) as (Hr1 & Hc1 & Heq1).
  destruct (cell_grid N c2 HN H2) as (Hr2 & Hc2 & Heq2).
  rewrite Heq2 at 1. rewrite elem_of_neighbors by done. split.
  - intros (r' & c' & Hr' & Hc' & Heq & Hdr & Hdc & Hne).
    assert (c1 / N = r') as Hr by (rewrite Heq; by apply grid_div).
    assert (c1 mod N = c') as Hc by (rewrite Heq; by apply grid_mod).
    rewrite Hr, Hc. split; [|done]. intros ->. lia.
  - intros (Hne & Hdr & Hdc). exists (c1 / N), (c1 mod N).
    assert (c1 / N ≠ c2 / N ∨ c1 mod N ≠ c2 mod N) as Hdiff.
    { destruct (decide (c1 / N = c2 / N)) as [Hr|]; [|by left]. right.
      intros Hc. apply Hne. rewrite Heq1, Heq2, Hr, Hc. done. }
    repeat split; (done || lia).
Qed.

(** X1.  On an N×N board, the neighbours of a cell are the cells of the
    board, other than the cell itself, whose row and whose column each
    differ from its own by at most one: the neighbourhood is clipped at the
    edges of the board and does not wrap around. *)
Theorem neighbors_grid (N a n : Z) :
  0 ≤ N → 0 ≤ a < N * N →
  n ∈ neighbors a N ↔
  0 ≤ n < N * N ∧ n ≠ a
  ∧ -1 ≤ n / N - a / N ≤ 1 ∧ -1 ≤ n mod N - a mod N ≤ 1.
Proof.
  intros HN Ha. split.
  - intros Hn.
    assert (0 ≤ n < N * N) as Hrange.
    { destruct (cell_grid N a HN Ha) as (Hr & Hc & Heq).
      rewrite Heq in Hn. apply elem_of_neighbors in Hn; [|done|done].
      destruct Hn as (r' & c' & Hr' & Hc' & -> & _). nia. }
    split; [done|]. by apply neighbors_apart.
  - intros (Hrange & Hne & Hnear). by apply neighbors_apart.
Qed.

(** X2.  For a cell of an N×N board: the cell is not its own neighbour,
    every neighbour is a cell of the board and has the cell among its own
    neighbours, and there are at most eight neighbours. *)
Theorem neighbors_of_cell (N a : Z) :
  0 ≤ N → 0 ≤ a < N * N →
  (a ∉ neighbors a N)
  ∧ (∀ n, n ∈ neighbors a N → 0 ≤ n < N * N ∧ a ∈ neighbors n N)
  ∧ (size (neighbors a N) ≤ 8)%nat.
Proof.
  intros HN Ha. destruct (cell_grid N a HN Ha) as (Hr & Hc & Heq).
  split; [|split].
  - rewrite Heq at 2. rewrite elem_of_neighbors by done.
    intros (r' & c' & Hr' & Hc' & Hn & _ & _ & Hne).
    assert (r' = a / N) as -> by nia. lia.
  - intros n. rewrite Heq at 1. rewrite elem_of_neighbors by done.
    intros (r' & c' & Hr' & Hc' & -> & Hdr & Hdc & Hne). split; [nia|].
    rewrite elem_of_neighbors by done.
    exists (a / N), (a mod N). repeat split; try lia.
  - assert (neighbors a N ⊆
            list_to_set [a + 1; a - 1; a + N; a - N;
                         a + 1 + N; a + 1 - N; a - 1 + N; a - 1 - N]) as Hsub.
    { intros n (dx & dy & Hdx & Hdy & Hnz & ->)%neighbors_offsets.
      rewrite elem_of_list_to_set, !elem_of_cons.
      destruct Hdx as [->|[[-> _]|[-> _]]], Hdy as [->|[[-> _]|[-> _]]];
        try lia; repeat first [left; lia | right]. }
    apply subseteq_size in Hsub.
    etrans; [exact Hsub|]. apply size_list_to_set_le.
Qed.

(** X2 on the 5×5 board: the corner cell 4. *)
Lemma neighbors_of_cell_witness :
  (4 ∉ neighbors 4 5)
  ∧ (∀ n, n ∈ neighbors 4 5 → 0 ≤ n < 5 * 5 ∧ 4 ∈ neighbors n 5)
  ∧ (size (neighbors 4 5) ≤ 8)%nat.
Proof. apply (neighbors_of_cell 5 4); lia. Defined.

(** X1 on the 5×5 board: cell 4, the corner of the first row, and cell 9
    below it. *)
Lemma neighbors_grid_witness :
  9 ∈ neighbors 4 5 ↔
  0 ≤ 9 < 5 * 5 ∧ 9 ≠ 4 ∧ -1 ≤ 9 / 5 - 4 / 5 ≤ 1 ∧ -1 ≤ 9 mod 5 - 4 mod 5 ≤ 1.
Proof. apply (neighbors_grid 5 4 9); lia. Defined.

(** ** The board [make_board] builds *)

Section MoreProperties.
Context {order : SetOrder}.

(** A column and a row of an N×N board, as [make_board] builds them. *)
Definition column_cells (N c : Z) : gset Z :=
  list_to_set ((λ r, N * r + c) <$> range N).

Definition row_cells (N r : Z) : gset Z :=
  list_to_set ((λ c, N * r + c) <$> range N).

Lemma elem_of_column (N c x : Z) :
  0 ≤ c < N → x ∈ column_cells N c ↔ 0 ≤ x < N * N ∧ x mod N = c.
Proof.
  intros Hc. unfold column_cells, range.
  rewrite elem_of_list_to_set, list_elem_of_fmap. split.
  - intros (r & -> & Hr%elem_of_seqZ). rewrite grid_mod by done. split; [nia|done].
  - intros [Hx <-]. destruct (cell_grid N x) as (Hr & _ & Heq); [lia|done|].
    exists (x / N). split; [done|]. apply elem_of_seqZ. lia.
Qed.

Lemma elem_of_row (N r x : Z) :
  0 ≤ r < N → x ∈ row_cells N r ↔ 0 ≤ x < N * N ∧ x / N = r.
Proof.
  intros Hr. unfold row_cells, range.
  rewrite elem_of_list_to_set, list_elem_of_fmap. split.
  - intros (c & -> & Hc%elem_of_seqZ). rewrite grid_div by lia. split; [nia|done].
  - intros [Hx <-]. destruct (cell_grid N x) as (_ & Hc & Heq); [lia|done|].
    exists (x mod N). split; [done|]. apply elem_of_seqZ. lia.
Qed.

Lemma elem_of_indexes (sequence : list ascii) (item : ascii) (x : Z) :
  x ∈ indexes sequence item ↔ 0 ≤ x ∧ sequence !! Z.to_nat x = Some item.
Proof.
  unfold indexes, range.
  rewrite elem_of_list_to_set, list_elem_of_filter, elem_of_seqZ. split.
  - intros [Hx ?]. split; [lia|done].
  - intros [Hx Hl]. split; [done|]. apply lookup_lt_Some in Hl. lia.
Qed.

Lemma size_grid_line (N : Z) (f : Z → Z) :
  (∀ x y, f x = f y → x = y) →
  size (list_to_set (f <$> range N) : gset Z) = Z.to_nat N.
Proof.
  intros Hinj. rewrite size_list_to_set.
  - unfold range. by rewrite length_fmap, length_seqZ.
  - apply NoDup_fmap_2_strong; [|apply NoDup_seqZ]. intros x y _ _. apply Hinj.
Qed.

Lemma filter_fmap_unique {A B} (P : B → Prop) `{!∀ b, Decision (P b)}
    (f : A → B) (l : list A) (x : A) :
  NoDup l → x ∈ l → P (f x) → (∀ y, y ∈ l → P (f y) → y = x) →
  filter P (f <$> l) = [f x].
Proof.
  induction l as [|a l IH]; intros Hnd Hx HP Huniq;
    [by apply elem_of_nil in Hx|].
  apply NoDup_cons in Hnd as [Ha Hnd]. rewrite fmap_cons, filter_cons.
  assert (∀ y, y ∈ l → ¬ P (f y) ∨ y = x) as Hl.
  { intros y Hy. destruct (decide (P (f y))); [right|by left].
    apply Huniq; [by right|done]. }
  apply elem_of_cons in Hx as [->|Hx].
  - rewrite decide_True by done. f_equal.
    clear IH Huniq. induction l as [|b l IH]; [done|].
    rewrite fmap_cons, filter_cons. rewrite decide_False.
    + apply IH; [set_solver|by apply NoDup_cons in Hnd as []|].
      intros y Hy. apply Hl. by right.
    + destruct (Hl b) as [?| ->]; [left|done|]. set_solver.
  - rewrite decide_False.
    + apply IH; try done. intros y Hy. apply Huniq. by right.
    + intros HPa. assert (a = x) as -> by (apply Huniq; [left|done]). done.
Qed.

(** X3.  On a board built by [make_board], [units_for] has an entry for
    every cell and for nothing else, and the entry of a cell lists exactly
    three units: the column of the cell, its row, and the box of the
    character the picture has at the cell, in that order. *)
Theorem make_board_units_for (S0 : Z) (picture : string) (board : Board.t)
    (c : Z) :
  make_board S0 picture = Return board →
  (0 ≤ c < Board.N board * Board.N board →
   ∃ ch, Board.pic board !! Z.to_nat c = Some ch
         ∧ Board.units_for board !! c
           = Some [column_cells (Board.N board) (c mod Board.N board);
                   row_cells (Board.N board) (c / Board.N board);
                   indexes (Board.pic board) ch])
  ∧ (¬ 0 ≤ c < Board.N board * Board.N board →
     Board.units_for board !! c = None).
Proof.
  unfold make_board. set (pic := without_whitespace _). set (N := Z.sqrt _).
  case_decide as Hlen; [|done]. intros [= <-]. simpl.
  rewrite lookup_units_for.
  assert (0 ≤ N) as HN by apply Z.sqrt_nonneg.
  split.
  - intros Hc. rewrite decide_True by (unfold range; apply elem_of_seqZ; lia).
    destruct (cell_grid N c HN Hc) as (Hr & Hm & Heq).
    destruct (lookup_lt_is_Some_2 pic (Z.to_nat c)) as [ch Hch]; [lia|].
    exists ch. split; [done|]. f_equal. rewrite !filter_app.
    rewrite (filter_fmap_unique (λ u, c ∈ u) _ (range N) (c mod N)).
    2: apply NoDup_seqZ. 2: unfold range; apply elem_of_seqZ; lia.
    2: by apply elem_of_column.
    2: { intros y Hy%elem_of_seqZ Hin.
         change (c ∈ column_cells N y) in Hin. apply elem_of_column in Hin as [_ ?]; lia. }
    rewrite (filter_fmap_unique (λ u, c ∈ u) _ (range N) (c / N)).
    2: apply NoDup_seqZ. 2: unfold range; apply elem_of_seqZ; lia.
    2: by apply elem_of_row.
    2: { intros y Hy%elem_of_seqZ Hin.
         change (c ∈ row_cells N y) in Hin. apply elem_of_row in Hin as [_ ?]; lia. }
    rewrite (filter_fmap_unique (λ u, c ∈ u) (indexes pic) (str_set_iter pic) ch).
    + done.
    + apply str_set_iter_NoDup.
    + apply str_set_iter_elem. by eapply list_elem_of_lookup_2.
    + apply elem_of_indexes. split; [lia|done].
    + intros y _ [_ Hy]%elem_of_indexes. congruence.
  - intros Hc. rewrite decide_False; [done|].
    unfold range. rewrite elem_of_seqZ. lia.
Qed.

(** X4.  A board built by [make_board] keeps the picture without its
    whitespace, of [N * N] characters, and the [S] it was given.  Its units
    are the [N] columns, then the [N] rows, then one box for each distinct
    character: [2 * N] units plus the number of distinct characters.  Every
    column and every row has [N] cells; every box is non-empty and made of
    cells; the boxes of two different characters share no cell. *)
Theorem make_board_units (S0 : Z) (picture : string) (board : Board.t) :
  make_board S0 picture = Return board →
  let N := Board.N board in
  let pic := Board.pic board in
  pic = without_whitespace picture
  ∧ Z.of_nat (length pic) = N * N
  ∧ Board.S board = S0
  ∧ Board.units board
    = (column_cells N <$> range N) ++ (row_cells N <$> range N)
      ++ (indexes pic <$> str_set_iter pic)
  ∧ length (Board.units board)
    = (2 * Z.to_nat N + length (remove_dups pic))%nat
  ∧ (∀ i, 0 ≤ i < N →
       size (column_cells N i) = Z.to_nat N ∧ size (row_cells N i) = Z.to_nat N)
  ∧ (∀ ch, ch ∈ pic → indexes pic ch ≠ ∅ ∧ indexes pic ch ⊆ cells board)
  ∧ (∀ ch1 ch2, ch1 ≠ ch2 → indexes pic ch1 ## indexes pic ch2).
Proof.
  unfold make_board. set (pic := without_whitespace _). set (N := Z.sqrt _).
  case_decide as Hlen; [|done]. intros [= <-]. simpl.
  assert (0 ≤ N) as HN by apply Z.sqrt_nonneg.
  split; [done|]. split; [done|]. split; [done|]. split; [done|].
  split; [|split; [|split]].
  - rewrite !length_app, !length_fmap. unfold range. rewrite length_seqZ.
    assert (length (str_set_iter pic) = length (remove_dups pic)) as ->; [|lia].
    apply Permutation_length, NoDup_Permutation.
    + apply str_set_iter_NoDup.
    + apply NoDup_remove_dups.
    + intros ch. by rewrite str_set_iter_elem, elem_of_remove_dups.
  - intros i Hi. split; apply size_grid_line; intros x y Hxy; nia.
  - intros ch Hch. apply list_elem_of_lookup in Hch as [i Hi]. split.
    + intros Hempty. apply (not_elem_of_empty (C:=gset Z) (Z.of_nat i)).
      rewrite <- Hempty. apply elem_of_indexes. rewrite Nat2Z.id. split; [lia|done].
    + intros x [Hx Hl]%elem_of_indexes. apply cells_spec; simpl.
      apply lookup_lt_Some in Hl. lia.
  - intros ch1 ch2 Hne x [_ H1]%elem_of_indexes [_ H2]%elem_of_indexes.
    congruence.
Qed.

(** ** The initial state *)

Definition size_le (u v : gset Z) : Prop := (size u ≤ size v)%nat.

Lemma insert_by_len_perm (u : gset Z) l : insert_by_len u l ≡ₚ u :: l.
Proof.
  induction l as [|v l IH]; simpl; [done|].
  case_decide; [done|]. rewrite IH. apply Permutation_swap.
Qed.

Lemma insert_by_len_sorted (u : gset Z) l :
  StronglySorted size_le l → StronglySorted size_le (insert_by_len u l).
Proof.
  induction 1 as [|v l Hs IH Hall]; simpl.
  - repeat constructor.
  - case_decide as Hle.
    + constructor; [by constructor|]. constructor; [done|].
      eapply Forall_impl; [exact Hall|]. unfold size_le. intros w ?. lia.
    + constructor; [done|]. rewrite insert_by_len_perm.
      constructor; [unfold size_le; lia|done].
Qed.

Lemma insert_by_len_filter (k : nat) (u : gset Z) l :
  filter (λ w, size w = k) (insert_by_len u l)
  = filter (λ w, size w = k) (u :: l).
Proof.
  induction l as [|v l IH]; simpl; [done|].
  case_decide as Hle; [done|]. rewrite !filter_cons in *. rewrite IH.
  destruct (decide (size u = k)), (decide (size v = k)); try done. lia.
Qed.

(** X5.  The initial state has no star and every cell of the board unknown.
    Its pending units are the units of the board in ascending order of
    size, units of the same size in the order the board has them. *)
Theorem initial_state_sorted (board : Board.t) :
  State.stars (initial_state board) = ∅
  ∧ State.unknowns (initial_state board) = cells board
  ∧ State.units (initial_state board) ≡ₚ Board.units board
  ∧ StronglySorted size_le (State.units (initial_state board))
  ∧ ∀ k : nat, filter (λ u, size u = k) (State.units (initial_state board))
               = filter (λ u, size u = k) (Board.units board).
Proof.
  split; [done|]. split; [apply initial_state_unknowns|].
  unfold initial_state; simpl.
  induction (Board.units board) as [|u l (IHp & IHs & IHf)]; simpl.
  - split; [done|]. split; [constructor|done].
  - split; [by rewrite insert_by_len_perm, IHp|].
    split; [by apply insert_by_len_sorted|].
    intros k. rewrite insert_by_len_filter, !filter_cons, IHf. done.
Qed.

(** ** Propagation *)

(** What a call may do to the stars and the unknowns of a state: add stars
    taken from the unknowns, and remove unknowns. *)
Definition only_resolves (st st' : State.t) : Prop :=
  State.stars st ⊆ State.stars st'
  ∧ State.unknowns st' ⊆ State.unknowns st
  ∧ (∀ c, c ∈ State.stars st' → c ∉ State.stars st →
          c ∈ State.unknowns st ∧ (c ∉ State.unknowns st'))
  ∧ (State.stars st ## State.unknowns st →
     State.stars st' ## State.unknowns st').

Lemma evolves_only_resolves st st' : evolves st st' → only_resolves st st'.
Proof.
  intros He. pose proof (evolves_disjoint _ _ He) as Hd.
  destruct He as (_ & Hs & Hk & Hn). done.
Qed.

(** X6.  Whatever their outcome (success, failure or an exception),
    [put_star] and [put_blank] never remove a star and never add an
    unknown; a star they add was an unknown and is one no more; and stars
    and unknowns that shared no cell before share none after. *)
Theorem propagation_only_resolves (fuel : nat) (cell : Z) (board : Board.t)
    (st : State.t) :
  only_resolves st (put_star fuel cell board st).2
  ∧ only_resolves st (put_blank fuel cell board st).2.
Proof.
  split; apply evolves_only_resolves; apply put_evolves.
Qed.

Lemma put_star_unfold fuel cell board st :
  put_star fuel cell board st
  = put_star_with (match fuel with
                   | O => no_fuel
                   | Datatypes.S f => λ c st, put_blank f c board st
                   end) cell board st.
Proof. by destruct fuel. Qed.

Lemma put_blank_unfold fuel cell board st :
  put_blank fuel cell board st
  = put_blank_with (match fuel with
                    | O => no_fuel
                    | Datatypes.S f => λ c st, put_star f c board st
                    end) cell board st.
Proof. by destruct fuel. Qed.

(** X7.  On a board built by [make_board] and a state whose stars and
    unknowns are cells of the board and share none: [put_blank] raises no
    exception, [put_star] raises none on a cell that is a star or unknown,
    and the state left behind is again such a state.  On a cell that is
    neither, [put_star] raises [KeyError] and leaves the state as it was. *)
Theorem propagation_exceptions (S0 : Z) (picture : string) (board : Board.t)
    (fuel : nat) (cell : Z) (st : State.t) :
  make_board S0 picture = Return board →
  state_wf board st →
  (∀ e, (put_blank fuel cell board st).1 ≠ Raised e)
  ∧ (cell ∈ State.stars st ∪ State.unknowns st →
     ∀ e, (put_star fuel cell board st).1 ≠ Raised e)
  ∧ ((cell ∉ State.stars st ∪ State.unknowns st) →
     put_star fuel cell board st = (Raised KeyError, st))
  ∧ state_wf board (put_star fuel cell board st).2
  ∧ state_wf board (put_blank fuel cell board st).2.
Proof.
  intros Hwf%make_board_wf Hst.
  destruct (put_safe board Hwf fuel) as [Hs Hb].
  split; [|split; [|split; [|split]]].
  - intros e He. apply (Hb cell st Hst). by rewrite He.
  - intros Hin e He. apply (Hs cell st Hst Hin). by rewrite He.
  - intros Hout. rewrite put_star_unfold. unfold put_star_with.
    rewrite !decide_False by set_solver. done.
  - eapply state_wf_evolves; [done|apply put_evolves].
  - eapply state_wf_evolves; [done|apply put_evolves].
Qed.

Lemma put_star_success_unknown fuel cell board st st' :
  put_star fuel cell board st = (Success, st') →
  cell ∉ State.stars st → cell ∈ State.unknowns st.
Proof.
  rewrite put_star_unfold. unfold put_star_with. intros Hput Hns.
  rewrite decide_False in Hput by done. by case_decide.
Qed.

(** X8.  When [put_star] succeeds on a cell that held no star, on a board
    built by [make_board]: the cell was unknown and is now a star; every
    star the call has added, the cell among them, has all its neighbours
    confirmed blank; and every unit that has received a star holds at most
    [S] stars. *)
Theorem put_star_success (S0 : Z) (picture : string) (board : Board.t)
    (fuel : nat) (cell : Z) (st st' : State.t) :
  make_board S0 picture = Return board →
  put_star fuel cell board st = (Success, st') →
  cell ∉ State.stars st →
  cell ∈ State.unknowns st
  ∧ cell ∈ State.stars st'
  ∧ (cell ∉ State.unknowns st')
  ∧ (∀ c n, c ∈ State.stars st' → c ∉ State.stars st →
            n ∈ neighbors c (Board.N board) →
            (n ∉ State.stars st') ∧ (n ∉ State.unknowns st'))
  ∧ (∀ U c, U ∈ Board.units board → c ∈ U →
            c ∈ State.stars st' → c ∉ State.stars st →
            count_stars U st' ≤ Board.S board).
Proof.
  intros Hwf%make_board_wf Hput Hns.
  pose proof (put_star_success_unknown _ _ _ _ _ Hput Hns) as Hunk.
  pose proof (put_star_adds board Hwf _ _ _ _ Hput) as Hin.
  pose proof (put_star_removes board Hwf _ _ _ _ _ Hput Hunk Hns) as Hout.
  apply (proj1 (put_propagates board Hwf fuel)) in Hput
    as ((_ & Hsub & _) & Hclosed & Hq).
  split; [done|]. split; [done|]. split; [done|]. split.
  - intros c n Hc Hnew Hn. by apply (Hclosed c Hc Hnew n Hn).
  - intros U c HU HcU Hc Hnew. destruct (Hq U HU) as [[?|Hsame] _]; [done|].
    exfalso. unfold count_stars in Hsame.
    assert (U ∩ State.stars st ⊂ U ∩ State.stars st') as Hlt%subset_size.
    { split; [set_solver|]. intros Hsup. apply Hnew.
      assert (c ∈ U ∩ State.stars st) by (apply Hsup; set_solver). set_solver. }
    lia.
Qed.

(** X9.  When [put_blank] succeeds on a board built by [make_board]: a cell
    that held no star is a confirmed blank afterwards; if the cell was
    unknown, every unit that contains it still has at least [S] stars and
    unknowns together; and so has every unit whose count of stars and
    unknowns has changed. *)
Theorem put_blank_success (S0 : Z) (picture : string) (board : Board.t)
    (fuel : nat) (cell : Z) (st st' : State.t) :
  make_board S0 picture = Return board →
  put_blank fuel cell board st = (Success, st') →
  ((cell ∉ State.stars st) →
   (cell ∉ State.stars st') ∧ (cell ∉ State.unknowns st'))
  ∧ (cell ∈ State.unknowns st →
     ∀ U, U ∈ Board.units board → cell ∈ U → Board.S board ≤ slack U st')
  ∧ (∀ U, U ∈ Board.units board → slack U st' ≠ slack U st →
          Board.S board ≤ slack U st').
Proof.
  intros Hwf%make_board_wf Hput.
  destruct (proj2 (put_propagates board Hwf fuel) _ _ _ Hput)
    as [(_ & _ & Hq) Hblank].
  split; [exact Hblank|]. split.
  - intros Hunk U HU HcU. revert Hput.
    rewrite put_blank_unfold. unfold put_blank_with.
    rewrite decide_True by done.
    destruct (Board.units_for board !! cell) as [us|] eqn:Hus; [|done].
    intros Heach. eapply (each_units_slack board); [|exact Heach| |done].
    + destruct fuel; [apply no_fuel_star_spec|apply put_propagates; done].
    + by apply (wf_units_for _ Hwf cell us Hus).
  - intros U HU Hne. destruct (Hq U HU) as [_ [?|?]]; done.
Qed.

(** X10.  Propagation never contradicts a valid placement.  On a state
    whose stars belong to the placement and which leaves every cell of the
    placement a star or unknown, with fuel for its unknowns: [put_star]
    succeeds on every cell of the placement, [put_blank] succeeds on every
    cell outside it, and the state they leave is again such a state. *)
Theorem propagation_keeps_placements (S0 : Z) (picture : string)
    (board : Board.t) (fuel : nat) (cell : Z) (st : State.t) (X : gset Z) :
  make_board S0 picture = Return board →
  valid_placement board X →
  consistent X st → state_wf board st →
  (size (State.unknowns st) ≤ fuel)%nat →
  (cell ∈ X →
   ∃ st', put_star fuel cell board st = (Success, st')
          ∧ consistent X st' ∧ state_wf board st')
  ∧ (cell ∉ X →
     ∃ st', put_blank fuel cell board st = (Success, st')
            ∧ consistent X st' ∧ state_wf board st').
Proof.
  intros Hwf%make_board_wf [_ Hsol] Hcons Hst Hfuel.
  destruct (is_solution_true _ _ Hsol) as [HU HA].
  destruct (put_complete board Hwf X HU HA fuel) as [Hcs Hcb].
  destruct (put_safe board Hwf fuel) as [Hss Hsb].
  destruct (put_fueled board fuel) as [Hfs Hfb].
  split; intros Hc.
  - destruct (Hcs cell st Hc (conj Hcons Hst)) as [Hnf Hag].
    specialize (Hss cell st Hst). specialize (Hfs cell st Hfuel).
    destruct (put_star fuel cell board st) as [[] st'] eqn:Hput; simpl in *;
      try done.
    + exists st'. split; [done|]. by apply Hag.
    + exfalso. apply Hss; [by apply (proj2 Hcons)|by rewrite Hput].
  - destruct (Hcb cell st Hc (conj Hcons Hst)) as [Hnf Hag].
    specialize (Hsb cell st Hst). specialize (Hfb cell st Hfuel).
    destruct (put_blank fuel cell board st) as [[] st'] eqn:Hput; simpl in *;
      try done.
    + exists st'. split; [done|]. by apply Hag.
    + exfalso. apply Hsb. by rewrite Hput.
Qed.

(** ** The search *)

Lemma yield_from_each_source {A B} (f : A → list B * result unit) l y :
  y ∈ (yield_from_each f l).1 → ∃ x, x ∈ l ∧ y ∈ (f x).1.
Proof.
  intros Hy.
  assert (Forall (λ y, ∃ x, x ∈ l ∧ y ∈ (f x).1) (yield_from_each f l).1) as Hall.
  { clear. induction l as [|a l IH]; simpl; [constructor|].
    destruct (f a) as [ys r] eqn:Ha.
    assert (Forall (λ y, ∃ x, x ∈ a :: l ∧ y ∈ (f x).1) ys) as Hys.
    { apply Forall_forall. intros y Hy. exists a. split; [left|]. by rewrite Ha. }
    destruct r; simpl; try done.
    destruct (yield_from_each f l) as [zs r']; simpl in *.
    apply Forall_app. split; [done|].
    eapply Forall_impl; [exact IH|]. intros y (x & Hx & Hy). exists x.
    split; [by right|done]. }
  rewrite Forall_forall in Hall. by apply Hall.
Qed.

Lemma yield_from_each_NoDup {A B C} (h : B → C)
    (f : A → list B * result unit) l :
  NoDup l →
  (∀ x, x ∈ l → NoDup (h <$> (f x).1)) →
  (∀ x x' y y', x ∈ l → x' ∈ l → x ≠ x' →
     y ∈ (f x).1 → y' ∈ (f x').1 → h y ≠ h y') →
  NoDup (h <$> (yield_from_each f l).1).
Proof.
  induction l as [|a l IH]; intros Hnd Hone Htwo; simpl; [constructor|].
  apply NoDup_cons in Hnd as [Ha Hnd].
  pose proof (Hone a (list_elem_of_here _ _)) as Hys.
  destruct (f a) as [ys r] eqn:Hfa. simpl in Hys.
  destruct r; simpl; try done.
  pose proof (yield_from_each_source f l) as Hsrc.
  destruct (yield_from_each f l) as [zs r'] eqn:Hl; simpl in *.
  rewrite fmap_app. apply NoDup_app. split; [done|]. split.
  - intros v (y & -> & Hy)%list_elem_of_fmap (y' & Heq & Hy')%list_elem_of_fmap.
    destruct (Hsrc y' Hy') as (x' & Hx' & Hyx').
    apply (Htwo a x' y y'); [left|by right| | |done|done].
    + intros ->. done.
    + by rewrite Hfa.
  - apply IH; [done| |].
    + intros x Hx. apply Hone. by right.
    + intros x x' y y' Hx Hx'. apply Htwo; by right.
Qed.

Lemma search_with_stars_grow rec fuel board st :
  (∀ g, Forall (λ y, State.stars g ⊆ State.stars y) (rec g).1) →
  Forall (λ y, State.stars st ⊆ State.stars y)
    (search_with rec (λ c st, put_star fuel c board st) board st).1.
Proof.
  intros Hrec. unfold search_with. simpl.
  destruct (discard_filled _ _ _) as [|u rest]; [by repeat constructor|].
  apply yield_from_each_Forall. intros c _. unfold guess.
  rewrite copy_state_id. cbv beta.
  set (st0 := State.mk _ _ _).
  pose proof (proj1 (put_evolves fuel board) c st0) as (_ & Hs & _).
  destruct (put_star fuel c board st0) as [[] g]; simpl in *;
    try constructor.
  eapply Forall_impl; [apply Hrec|]. simpl. intros y Hy. set_solver.
Qed.

Lemma search_stars_grow fuel board st :
  Forall (λ y, State.stars st ⊆ State.stars y) (search fuel board st).1.
Proof.
  revert st. induction fuel as [|f IH]; intros st; rewrite search_unfold;
    apply search_with_stars_grow; [|done].
  intros g. constructor.
Qed.

Section OneStar.
Context (board : Board.t) (Hwf : board_wf board).
Context (Hone : Board.S board = 1).

Lemma one_star_of_unit u c y :
  u ∈ Board.units board → solved board y → c ∈ u → c ∈ State.stars y →
  u ∩ State.stars y = {[c]}.
Proof.
  intros Hu [Hinv Hnil] Hcu Hcy.
  destruct (si_filled _ _ Hinv u Hu) as [Hin|Hcount].
  { rewrite Hnil in Hin. by apply elem_of_nil in Hin. }
  unfold count_stars in Hcount. rewrite Hone in Hcount.
  symmetry. apply set_subseteq_size_eq; [set_solver|].
  rewrite size_singleton. lia.
Qed.

Lemma search_with_distinct rec fuel st :
  (∀ g, search_inv board g →
        Forall (solved board) (rec g).1
        ∧ Forall (λ y, State.stars g ⊆ State.stars y) (rec g).1
        ∧ NoDup (State.stars <$> (rec g).1)) →
  search_inv board st →
  NoDup (State.stars
           <$> (search_with rec (λ c st, put_star fuel c board st) board st).1).
Proof.
  intros Hrec Hinv%(search_inv_discard board). unfold search_with.
  set (st0 := State.mk _ _ _) in *. simpl.
  destruct (discard_filled _ _ _) as [|u rest] eqn:Hd.
  { simpl. apply NoDup_singleton. }
  assert (u ∈ Board.units board) as Hu.
  { apply (si_units _ _ Hinv). unfold st0; simpl; rewrite ?Hd. left. }
  assert (∀ c y, c ∈ set_iter (u ∩ State.unknowns st0) →
            y ∈ (guess rec (λ c st, put_star fuel c board st) st0 c).1 →
            solved board y ∧ c ∈ u ∧ c ∈ State.stars y) as Hbranch.
  { intros c y Hc. rewrite set_iter_perm, elem_of_elements in Hc.
    apply elem_of_intersection in Hc as [Hcu _].
    unfold guess. rewrite copy_state_id.
    destruct (put_star fuel c board st0) as [[] g] eqn:Hput; simpl;
      try by intros ?%elem_of_nil.
    pose proof (put_star_adds board Hwf _ _ _ _ Hput) as Hcg.
    pose proof (proj1 (put_propagates board Hwf fuel) _ _ _ Hput) as Hp.
    destruct (Hrec g) as (Hsol & Hgrow & _);
      [by eapply search_inv_propagates|].
    rewrite Forall_forall in Hsol, Hgrow. intros Hy.
    split; [by apply Hsol|]. split; [done|]. by apply (Hgrow y Hy). }
  apply yield_from_each_NoDup.
  - rewrite set_iter_perm. apply NoDup_elements.
  - intros c _. unfold guess. rewrite copy_state_id.
    destruct (put_star fuel c board st0) as [[] g] eqn:Hput; simpl;
      try constructor.
    apply Hrec. eapply search_inv_propagates; [done|exact Hinv|].
    by apply (proj1 (put_propagates board Hwf fuel) _ _ _ Hput).
  - intros c c' y y' Hc Hc' Hne Hy Hy' Heq.
    destruct (Hbranch c y Hc Hy) as (Hs & Hcu & Hcy).
    destruct (Hbranch c' y' Hc' Hy') as (Hs' & Hcu' & Hcy').
    pose proof (one_star_of_unit u c y Hu Hs Hcu Hcy) as H1.
    pose proof (one_star_of_unit u c' y' Hu Hs' Hcu' Hcy') as H2.
    rewrite Heq, H2 in H1. apply Hne. symmetry.
    by apply (singleton_inj (A:=Z) (C:=gset Z)).
Qed.

Lemma search_distinct fuel st :
  search_inv board st → NoDup (State.stars <$> (search fuel board st).1).
Proof.
  revert st. induction fuel as [|f IH]; intros st Hinv; rewrite search_unfold;
    apply search_with_distinct; try done.
  - intros g _. simpl. repeat split; constructor.
  - intros g Hg. split; [by apply search_sound|].
    split; [apply search_stars_grow|by apply IH].
Qed.

End OneStar.

(** X11.  With one star per unit, [search] yields no placement twice: the
    star sets of the states it yields from the initial state are all
    different.  With fuel for [N * N] levels they are exactly the valid
    placements, so that the search yields exactly one result if and only if
    the board has exactly one valid placement. *)
Theorem search_one_star (S0 : Z) (picture : string) (board : Board.t)
    (fuel : nat) :
  make_board S0 picture = Return board →
  Board.S board = 1 →
  let yields := (search fuel board (initial_state board)).1 in
  NoDup (State.stars <$> yields)
  ∧ ((Z.to_nat (Board.N board * Board.N board) ≤ fuel)%nat →
     (∀ X, valid_placement board X ↔ X ∈ State.stars <$> yields)
     ∧ (length yields = 1%nat ↔
        ∃ X, valid_placement board X
             ∧ ∀ X', valid_placement board X' → X' = X)).
Proof.
  intros Hwf%make_board_wf Hone yields.
  assert (NoDup (State.stars <$> yields)) as Hnd.
  { apply search_distinct; [done|done|apply initial_state_inv]. }
  split; [done|]. intros Hfuel.
  assert (∀ X, valid_placement board X ↔ X ∈ State.stars <$> yields) as Hiff.
  { intros X. rewrite list_elem_of_fmap. split.
    - intros HX. destruct (valid_yielded board fuel X Hwf Hfuel HX)
        as (y & Hy & <-). by exists y.
    - intros (y & -> & Hy).
      pose proof (yielded_valid board fuel Hwf) as Hval.
      rewrite Forall_forall in Hval. by apply Hval. }
  split; [done|]. split.
  - intros Hlen. destruct yields as [|y [|??]] eqn:Hy; try done.
    exists (State.stars y). split; [apply Hiff; simpl; left|].
    intros X' HX'%Hiff. simpl in HX'. by apply list_elem_of_singleton in HX'.
  - intros (X & HX & Huniq).
    destruct yields as [|y [|y' l]] eqn:Hy; [|done|].
    + apply Hiff in HX. by apply elem_of_nil in HX.
    + exfalso. simpl in Hnd. apply NoDup_cons in Hnd as [Hnin _].
      apply Hnin. rewrite (Huniq (State.stars y)), <- (Huniq (State.stars y')).
      * left.
      * apply Hiff. simpl. right; left.
      * apply Hiff. simpl. left.
Qed.

Lemma yield_from_each_count {A B} (P : B → Prop) `{!∀ y, Decision (P y)}
    (Q : A → Prop) `{!∀ x, Decision (Q x)}
    (f : A → list B * result unit) l :
  (∀ x, x ∈ l → (f x).2 = Return ()) →
  (∀ x, x ∈ l → Q x → ∃ y, y ∈ (f x).1 ∧ P y) →
  (length (filter Q l) ≤ length (filter P (yield_from_each f l).1))%nat.
Proof.
  induction l as [|a l IH]; intros Hends Hex; simpl; [done|].
  pose proof (Hends a (list_elem_of_here _ _)) as Ha.
  pose proof (Hex a (list_elem_of_here _ _)) as Hya.
  destruct (f a) as [ys r] eqn:Hfa. simpl in Ha, Hya. subst r.
  assert (length (filter Q l) ≤ length (filter P (yield_from_each f l).1))%nat
    as Hle.
  { apply IH; intros x Hx; [apply Hends|apply Hex]; by right. }
  destruct (yield_from_each f l) as [zs r']. simpl in *.
  rewrite filter_app, length_app, filter_cons.
  destruct (decide (Q a)) as [HQ|HQ]; simpl; [|lia].
  destruct (Hya HQ) as (y & Hy & HP).
  assert (y ∈ filter P ys) as Hin by (by apply list_elem_of_filter).
  destruct (filter P ys); [by apply elem_of_nil in Hin|]. simpl. lia.
Qed.

Section Repeats.
Context (board : Board.t) (Hwf : board_wf board) (X : gset Z).
Context (HXunits : ∀ U, U ∈ Board.units board →
                        Z.of_nat (size (X ∩ U)) = Board.S board).
Context (HXapart : ∀ c n, c ∈ X → n ∈ neighbors c (Board.N board) → n ∉ X).

Lemma search_with_repeats rec fuel st u rest :
  (∀ g, state_wf board g →
        (size (State.unknowns g) < size (State.unknowns st))%nat →
        (rec g).2 = Return ()) →
  (∀ g, search_inv board g → agrees board X g →
        (size (State.unknowns g) < size (State.unknowns st))%nat →
        ∃ y, y ∈ (rec g).1 ∧ State.stars y = X) →
  search_inv board st → agrees board X st →
  (size (State.unknowns st) ≤ fuel)%nat →
  discard_filled board (State.stars st) (State.units st) = u :: rest →
  (size (X ∩ (u ∩ State.unknowns st))
   ≤ length (filter (λ y, State.stars y = X)
       (search_with rec (λ c st, put_star fuel c board st) board st).1))%nat.
Proof.
  intros Hends Hrec Hinv%(search_inv_discard board) Hag Hfuel Hd.
  unfold search_with. set (st0 := State.mk _ _ _) in *. simpl.
  assert (agrees board X st0) as Hag0.
  { destruct Hag as [Hc Hst]. split; [done|by destruct Hst]. }
  pose proof (si_wf _ _ Hinv) as Hst0.
  rewrite Hd.
  change (State.unknowns st) with (State.unknowns st0).
  set (l := set_iter (u ∩ State.unknowns st0)).
  assert (size (X ∩ (u ∩ State.unknowns st0))
          = length (filter (λ c, c ∈ X) l)) as ->.
  { rewrite <- (size_list_to_set (C:=gset Z)).
    - f_equal. apply set_eq. intros c.
      rewrite elem_of_list_to_set, list_elem_of_filter. unfold l.
      rewrite set_iter_perm, elem_of_elements. set_solver.
    - apply NoDup_filter. unfold l. rewrite set_iter_perm.
      apply NoDup_elements. }
  apply (yield_from_each_count (λ y, State.stars y = X) (λ c, c ∈ X)).
  - intros x Hx. unfold l in Hx. rewrite set_iter_perm, elem_of_elements in Hx.
    apply elem_of_intersection in Hx as [_ Hx]. unfold guess.
    rewrite copy_state_id.
    destruct (guess_outcome board Hwf fuel x st0 Hst0 Hx Hfuel)
      as [Hfail|(g & Hg & Hp & Hlt)].
    + destruct (put_star fuel x board st0) as [o g]; simpl in *. by subst o.
    + rewrite Hg. apply Hends; [|done].
      eapply state_wf_evolves; [exact Hst0|apply Hp].
  - intros c Hc HcX. unfold l in Hc.
    rewrite set_iter_perm, elem_of_elements in Hc.
    apply elem_of_intersection in Hc as [_ Hcu].
    destruct (proj1 (put_complete board Hwf X HXunits HXapart fuel)
                c st0 HcX Hag0) as [Hnf Hagg].
    destruct (guess_outcome board Hwf fuel c st0 Hst0 Hcu Hfuel)
      as [Hfail|(g & Hg & Hp & Hlt)]; [done|].
    destruct (Hrec g) as (y & Hy & HyX); [|by apply Hagg|done|].
    { by eapply search_inv_propagates. }
    exists y. split; [|done]. unfold guess. rewrite copy_state_id.
    simpl in Hg. by rewrite Hg.
Qed.

End Repeats.

(** X12.  On a board with at least one cell, [search] with fuel for [N * N]
    levels yields every valid placement at least [S] times: once below each
    of the placement's [S] stars in the first unit guessed. *)
Theorem search_repeats (S0 : Z) (picture : string) (board : Board.t)
    (fuel : nat) (X : gset Z) :
  make_board S0 picture = Return board →
  0 < Board.N board →
  (Z.to_nat (Board.N board * Board.N board) ≤ fuel)%nat →
  valid_placement board X →
  Board.S board
  ≤ Z.of_nat (length (filter (λ y, State.stars y = X)
                        (search fuel board (initial_state board)).1)).
Proof.
  intros Hwf%make_board_wf HN Hfuel HX.
  destruct (decide (Board.S board ≤ 0)) as [|HS]; [lia|].
  destruct (is_solution_true _ _ (proj2 HX)) as [HU HA].
  pose proof (initial_state_agrees board X HX) as Hag.
  pose proof (initial_state_inv board) as Hinv.
  pose proof (initial_state_size board) as Hsize.
  set (st := initial_state board) in *.
  destruct (discard_filled board (State.stars st) (State.units st))
    as [|u rest] eqn:Hd.
  { exfalso. destruct (wf_cover _ Hwf 0) as (U & HUin & _).
    { apply cells_spec. nia. }
    destruct (si_filled _ _ (search_inv_discard board _ Hinv) U HUin)
      as [Hin|Hcount].
    - change (U ∈ discard_filled board (State.stars st) (State.units st))
        in Hin.
      rewrite Hd in Hin. by apply elem_of_nil in Hin.
    - unfold count_stars in Hcount. simpl in Hcount.
      rewrite intersection_empty_r_L, size_empty in Hcount. lia. }
  assert (u ∈ Board.units board) as Hu.
  { apply (si_units _ _ (search_inv_discard board _ Hinv)).
    change (u ∈ discard_filled board (State.stars st) (State.units st)).
    rewrite Hd. left. }
  assert (X ∩ (u ∩ State.unknowns st) = X ∩ u) as Hcand.
  { unfold st. rewrite initial_state_unknowns. destruct HX as [Hsub _].
    clear -Hsub. set_solver. }
  rewrite <- (HU u Hu), <- Hcand. apply inj_le.
  rewrite search_unfold.
  eapply search_with_repeats; try done;[| |lia].
  - intros g Hg Hlt. destruct fuel as [|f]; [lia|].
    apply search_ends; [done|done|lia].
  - intros g Hg Hag' Hlt. destruct fuel as [|f]; [lia|].
    apply search_complete; try done. lia.
Qed.

(** ** Checking a placement *)

Lemma make_board_empty (S0 : Z) (picture : string) (board : Board.t) :
  make_board S0 picture = Return board →
  Board.N board = 0 → Board.units board = [].
Proof.
  unfold make_board. case_decide as Hlen; [|done].
  intros [= <-]. simpl. intros HN. rewrite HN in *.
  assert (without_whitespace picture = []) as ->.
  { destruct (without_whitespace picture); [done|simpl in Hlen; lia]. }
  assert (str_set_iter [] = []) as ->; [|done].
  destruct (str_set_iter []) as [|a l] eqn:Hs; [done|].
  assert (a ∈ str_set_iter []) as Ha by (rewrite Hs; left).
  apply (proj1 (str_set_iter_elem _ _)) in Ha. by apply elem_of_nil in Ha.
Qed.

Lemma forallb_bool_decide_iff {A} (P : A → Prop) `{!∀ x, Decision (P x)} l :
  forallb (λ x, bool_decide (P x)) l = true ↔ ∀ x, x ∈ l → P x.
Proof.
  rewrite forallb_forall. split.
  - intros Hall x Hx%list_elem_of_In.
    by apply (bool_decide_eq_true_1 (P x)), Hall.
  - intros Hall x Hx%list_elem_of_In. apply bool_decide_eq_true_2. by apply Hall.
Qed.

(** X13.  [is_solution] on a board made by [make_board] raises nothing but
    [ZeroDivisionError], and that exactly on the empty board with a non-empty
    set of stars.  For stars among the board's cells it returns, and it
    returns [True] exactly when every unit holds [S] of the stars and no two
    different stars lie in rows and in columns that are both at most one
    apart. *)
Theorem is_solution_rules (S0 : Z) (picture : string) (board : Board.t)
    (stars : gset Z) :
  make_board S0 picture = Return board →
  (∀ e, is_solution board stars = Raise e →
        e = ZeroDivisionError ∧ Board.N board = 0 ∧ stars ≠ ∅)
  ∧ (Board.N board = 0 → stars ≠ ∅ →
     is_solution board stars = Raise ZeroDivisionError)
  ∧ (is_solution board stars ≠ OutOfFuel)
  ∧ (stars ⊆ cells board →
     ∃ b, is_solution board stars = Return b
          ∧ (b = true ↔
             (∀ U, U ∈ Board.units board →
                   Z.of_nat (size (stars ∩ U)) = Board.S board)
             ∧ (∀ c1 c2, c1 ∈ stars → c2 ∈ stars → c1 ≠ c2 →
                  ¬ (-1 ≤ c1 / Board.N board - c2 / Board.N board ≤ 1
                     ∧ -1 ≤ c1 mod Board.N board - c2 mod Board.N board ≤ 1)))).
Proof.
  intros Hmake. pose proof (make_board_wf _ _ _ Hmake) as Hwf.
  pose proof (make_board_empty _ _ _ Hmake) as Hempty.
  unfold is_solution.
  destruct (forallb _ (Board.units board)) eqn:Hall.
  2:{ split; [done|]. split.
      { intros HN _. rewrite (Hempty HN) in Hall. done. }
      split; [done|]. intros _. exists false. split; [done|].
      split; [done|]. intros [HU _].
      apply (proj2 (forallb_bool_decide_iff
               (λ U, Z.of_nat (size (stars ∩ U)) = Board.S board) _)) in HU.
      pose proof (eq_trans (eq_sym HU) Hall). done. }
  pose proof (proj1 (forallb_bool_decide_iff
    (λ U, Z.of_nat (size (stars ∩ U)) = Board.S board) _) Hall) as HU.
  clear Hall.
  destruct (decide (stars = ∅)) as [->|Hne].
  { split; [done|]. split; [done|]. split; [done|]. intros _.
    exists true. split; [done|]. split; [|done]. intros _.
    split; [done|]. intros c1 c2 Hc1. by apply elem_of_empty in Hc1. }
  destruct (decide (Board.N board = 0)) as [HN|HN].
  { split; [by intros e [= <-]|]. split; [done|]. split; [done|].
    intros Hsub. exfalso. apply Hne. apply set_eq. intros c.
    split; [|set_solver]. intros Hc%Hsub%cells_spec. rewrite HN in Hc. lia. }
  split; [done|]. split; [done|]. split; [done|]. intros Hsub.
  eexists. split; [done|]. rewrite bool_decide_eq_true.
  pose proof (wf_N _ Hwf) as HN0.
  split.
  - intros Hpair. split; [done|]. intros c1 c2 Hc1 Hc2 Hneq Hnear.
    apply (Hpair c1 Hc1 c2 Hc2).
    apply neighbors_apart; [done| | |done].
    + by apply cells_spec, Hsub.
    + by apply cells_spec, Hsub.
  - intros [_ Hpair] c1 Hc1 c2 Hc2 Hin.
    apply neighbors_apart in Hin as (Hneq & Hnear); [| done | |].
    + by apply (Hpair c1 c2).
    + by apply cells_spec, Hsub.
    + by apply cells_spec, Hsub.
Qed.

(** ** Printing a board *)

Lemma length_join sep chars :
  length (join sep chars) = (2 * length chars - 1)%nat.
Proof.
  induction chars as [|a [|b l] IH]; [done|done|].
  change (join sep (a :: b :: l)) with (a :: sep :: join sep (b :: l)).
  simpl length in *. lia.
Qed.

Lemma lookup_join sep chars (j : nat) :
  join sep chars !! (2 * j)%nat = chars !! j.
Proof.
  revert j. induction chars as [|a [|b l] IH]; intros j.
  - done.
  - destruct j as [|j]; [done|]. simpl.
    replace (j + S (j + 0))%nat with (S (2 * j)) by lia. done.
  - change (join sep (a :: b :: l)) with (a :: sep :: join sep (b :: l)).
    destruct j as [|j]; [done|].
    replace (2 * S j)%nat with (S (S (2 * j))) by lia. simpl. apply IH.
Qed.

Lemma length_slice {A} (chars : list A) (a b : Z) :
  0 ≤ a ≤ b → b ≤ Z.of_nat (length chars) →
  length (slice chars a b) = Z.to_nat (b - a).
Proof.
  intros Hab Hb. unfold slice. rewrite length_drop, length_take. lia.
Qed.

Lemma lookup_slice {A} (chars : list A) (a b j : Z) :
  0 ≤ a → 0 ≤ j → a + j < b →
  slice chars a b !! Z.to_nat j = chars !! Z.to_nat (a + j).
Proof.
  intros Ha Hj Hb. unfold slice. rewrite lookup_drop, lookup_take_lt by lia.
  f_equal. lia.
Qed.

Lemma length_row N chars i :
  0 < N → 0 ≤ i < N → Z.of_nat (length chars) = N * N →
  Z.of_nat (length (row N chars i)) = 2 * N - 1.
Proof.
  intros HN Hi Hlen. unfold row. rewrite length_join, length_slice by nia.
  nia.
Qed.

Lemma lookup_row N chars i j :
  0 ≤ i → 0 ≤ j < N →
  row N chars i !! Z.to_nat (2 * j) = chars !! Z.to_nat (N * i + j).
Proof.
  intros Hi Hj. unfold row.
  replace (Z.to_nat (2 * j)) with (2 * Z.to_nat j)%nat by lia.
  rewrite lookup_join, lookup_slice by nia. f_equal. lia.
Qed.

(** X14.  On a board made by [make_board], when [is_solution] returns,
    [print_board] prints [N] lines for the rows of the board and a last line
    with the verdict of [is_solution].  The line of row [i] has [5 * N]
    characters; for each column [j] it shows the picture's character of the
    cell at position [2 * j], and at position [3 * N + 1 + 2 * j] a star if
    the cell is in [stars], the picture's character otherwise. *)
Theorem print_board_lines (S0 : Z) (picture : string) (board : Board.t)
    (stars : gset Z) (b : bool) :
  make_board S0 picture = Return board →
  is_solution board stars = Return b →
  let N := Board.N board in
  ∃ lines,
    print_board board stars
    = (lines ++ [list_ascii_of_string
                   (if b then "Valid solution" else "Invalid solution")],
       Return ())
    ∧ Z.of_nat (length lines) = N
    ∧ ∀ i j, 0 ≤ i < N → 0 ≤ j < N →
        ∃ line ch,
          lines !! Z.to_nat i = Some line
          ∧ Board.pic board !! Z.to_nat (N * i + j) = Some ch
          ∧ Z.of_nat (length line) = 5 * N
          ∧ line !! Z.to_nat (2 * j) = Some ch
          ∧ line !! Z.to_nat (3 * N + 1 + 2 * j)
            = Some (if decide (N * i + j ∈ stars) then "*"%char else ch).
Proof.
  intros Hmake Hsol N. unfold print_board. rewrite Hsol.
  eexists. split; [done|].
  pose proof (wf_N _ (make_board_wf _ _ _ Hmake)) as HN. fold N in HN |- *.
  assert (Z.of_nat (length (Board.pic board)) = N * N) as Hlen.
  { revert Hmake. unfold make_board. case_decide as Hl; [|done].
    intros [= <-]. done. }
  split.
  { rewrite length_fmap. unfold range. rewrite length_seqZ. lia. }
  intros i j Hi Hj.
  set (pic := Board.pic board) in *.
  destruct (lookup_lt_is_Some_2 pic (Z.to_nat (N * i + j))) as [ch Hch];
    [nia|].
  eexists _, ch. split.
  { rewrite list_lookup_fmap. unfold range.
    rewrite (lookup_seqZ_lt 0 N (Z.to_nat i)) by lia. simpl.
    rewrite Z.add_0_l, Z2Nat.id by lia. done. }
  split; [done|].
  assert (Z.of_nat (length (filled pic stars)) = N * N) as Hlenf.
  { unfold filled. by rewrite length_imap. }
  pose proof (length_row N pic i ltac:(lia) Hi Hlen) as Hl1.
  pose proof (length_row N (filled pic stars) i ltac:(lia) Hi Hlenf) as Hl2.
  unfold print3. split; [|split].
  - rewrite length_app, length_cons, length_app, length_cons,
      length_replicate. lia.
  - rewrite lookup_app_l by lia. rewrite lookup_row by lia. done.
  - rewrite lookup_app_r by lia.
    replace (Z.to_nat (3 * N + 1 + 2 * j) - length (row N pic i))%nat
      with (S (Z.to_nat (N + 1 + 2 * j))) by lia.
    simpl. rewrite lookup_app_r by (rewrite length_replicate; lia).
    rewrite length_replicate.
    replace (Z.to_nat (N + 1 + 2 * j) - Z.to_nat N)%nat
      with (S (Z.to_nat (2 * j))) by lia.
    simpl. rewrite lookup_row by lia. unfold filled.
    rewrite list_lookup_imap, Hch. simpl. rewrite Z2Nat.id by nia. done.
Qed.

(** ** Solving *)

Lemma print_board_valid board X :
  valid_placement board X →
  ∃ lines, print_board board X
           = (lines ++ [list_ascii_of_string "Valid solution"], Return ())
           ∧ length lines = Z.to_nat (Board.N board).
Proof.
  intros [_ Hsol]. unfold print_board. rewrite Hsol. eexists. split; [done|].
  rewrite length_fmap. unfold range. by rewrite length_seqZ.
Qed.

(** X15.  [solve] on a board made by [make_board]: printing never makes it
    raise.  When it returns, the stars returned are a valid placement, and it
    has printed the [N] rows of the board followed by the line "Valid
    solution"; when it does not return, it has printed nothing.  With fuel
    for [N * N] levels it returns as soon as the board has a valid
    placement. *)
Theorem solve_output_valid (S0 : Z) (picture : string) (board : Board.t)
    (fuel : nat) :
  make_board S0 picture = Return board →
  (solve_output fuel board).2 = solve fuel board
  ∧ (∀ X, solve fuel board = Return X →
       valid_placement board X
       ∧ ∃ lines,
           (solve_output fuel board).1
           = lines ++ [list_ascii_of_string "Valid solution"]
           ∧ length lines = Z.to_nat (Board.N board))
  ∧ ((∀ X, solve fuel board ≠ Return X) → (solve_output fuel board).1 = [])
  ∧ ((Z.to_nat (Board.N board * Board.N board) ≤ fuel)%nat →
     (∃ X, valid_placement board X) → ∃ X, solve fuel board = Return X).
Proof.
  intros Hwf%make_board_wf.
  pose proof (yielded_valid board fuel Hwf) as Hval.
  pose proof (valid_yielded board fuel) as Hcomp.
  unfold solve_output, solve.
  destruct (search fuel board (initial_state board)) as [[|y l] r] eqn:Hs.
  - split; [by destruct r|]. split; [by destruct r|].
    split; [by destruct r|]. intros Hfuel [X HX]. exfalso.
    destruct (Hcomp X Hwf Hfuel HX) as (y & Hy & _).
    by apply elem_of_nil in Hy.
  - simpl in Hval. apply Forall_cons in Hval as [Hy _].
    destruct (print_board_valid board _ Hy) as (lines & -> & Hlen). simpl.
    split; [done|]. split.
    + intros X [= <-]. split; [done|]. by exists lines.
    + split; [|by eexists]. intros Hno. by destruct (Hno (State.stars y)).
Qed.

Lemma discard_filled_no_star board us :
  Board.S board = 0 → discard_filled board ∅ us = [].
Proof.
  intros HS. induction us as [|u us IH]; simpl; [done|].
  rewrite intersection_empty_r_L, size_empty, decide_True by done. done.
Qed.

(** X16.  The boards on which [solve] makes no guess.  With [S = 0], or on
    the empty board, [search] yields the initial state, with every unit
    discarded and no star, and [solve] returns the empty set, whatever the
    fuel.  On a board with cells where [S] is negative or larger than [N],
    no unit can be filled: with fuel for [N * N] levels [search] yields
    nothing and [solve] raises [StopIteration]. *)
Theorem solve_degenerate (S0 : Z) (picture : string) (board : Board.t)
    (fuel : nat) :
  make_board S0 picture = Return board →
  (Board.S board = 0 ∨ Board.N board = 0 →
   search fuel board (initial_state board)
   = ([State.mk [] ∅ (cells board)], Return ())
   ∧ solve fuel board = Return ∅)
  ∧ (0 < Board.N board →
     Board.S board < 0 ∨ Board.N board < Board.S board →
     (Z.to_nat (Board.N board * Board.N board) ≤ fuel)%nat →
     search fuel board (initial_state board) = ([], Return ())
     ∧ solve fuel board = Raise StopIteration).
Proof.
  intros Hmake. pose proof (make_board_wf _ _ _ Hmake) as Hwf. split.
  - intros Hdeg.
    assert (search fuel board (initial_state board)
            = ([State.mk [] ∅ (cells board)], Return ())) as Hs.
    { rewrite search_unfold. unfold search_with.
      assert (discard_filled board (State.stars (initial_state board))
                (State.units (initial_state board)) = []) as ->.
      { destruct Hdeg as [HS|HN].
        - by apply discard_filled_no_star.
        - simpl. by rewrite (make_board_empty _ _ _ Hmake HN). }
      simpl. unfold cells. by rewrite Z.pow_2_r. }
    split; [done|]. unfold solve. by rewrite Hs.
  - intros HN HS Hfuel.
    assert (∀ X, ¬ valid_placement board X) as Hno.
    { intros X [Hsub [HU _]%is_solution_true].
      destruct HS as [HS|HS].
      - destruct (wf_cover _ Hwf 0) as (U & HUin & _); [apply cells_spec; nia|].
        specialize (HU U HUin). lia.
      - assert (column_cells (Board.N board) 0 ∈ Board.units board) as Hcol.
        { revert Hmake HN. clear. unfold make_board.
          case_decide as Hlen; [|done]. intros [= <-]. simpl. intros HN.
          apply elem_of_app. left. apply list_elem_of_fmap. exists 0.
          split; [done|]. unfold range. apply elem_of_seqZ. lia. }
        specialize (HU _ Hcol).
        assert (size (X ∩ column_cells (Board.N board) 0)
                ≤ size (column_cells (Board.N board) 0))%nat as Hle
          by (apply subseteq_size; set_solver).
        unfold column_cells in Hle at 2.
        rewrite size_grid_line in Hle by (intros x y; nia). lia. }
    pose proof (yielded_valid board fuel Hwf) as Hval.
    pose proof (search_initial_ends board fuel Hwf Hfuel) as Hend.
    unfold solve.
    destruct (search fuel board (initial_state board)) as [[|y l] r] eqn:Hs.
    + simpl in Hend. subst r. done.
    + apply Forall_cons in Hval as [Hy _]. by destruct (Hno _ Hy).
Qed.

(** ** The first guesses *)

Lemma sorted_by_len_perm (l : list (gset Z)) : sorted_by_len l ≡ₚ l.
Proof.
  induction l as [|u l IH]; simpl; [done|]. by rewrite insert_by_len_perm, IH.
Qed.

Lemma sorted_by_len_sorted (l : list (gset Z)) :
  StronglySorted size_le (sorted_by_len l).
Proof.
  induction l as [|u l IH]; simpl; [constructor|].
  by apply insert_by_len_sorted.
Qed.

Lemma make_board_units_cells (S0 : Z) (picture : string) (board : Board.t) U :
  make_board S0 picture = Return board →
  U ∈ Board.units board → U ⊆ cells board.
Proof.
  unfold make_board. set (pic := without_whitespace _). set (N := Z.sqrt _).
  case_decide as Hlen; [|done]. intros [= <-]. simpl.
  rewrite !elem_of_app, !list_elem_of_fmap.
  intros [(c & -> & Hc)|[(r & -> & Hr)|(ch & -> & Hch)]] x Hx;
    apply cells_spec; simpl.
  - unfold range in Hc. apply elem_of_seqZ in Hc.
    change (x ∈ column_cells N c) in Hx.
    apply elem_of_column in Hx as [? _]; [done|lia].
  - unfold range in Hr. apply elem_of_seqZ in Hr.
    change (x ∈ row_cells N r) in Hx.
    apply elem_of_row in Hx as [? _]; [done|lia].
  - apply elem_of_indexes in Hx as [? Hl]. apply lookup_lt_Some in Hl.
    fold pic in Hl. lia.
Qed.

(** X17.  On a board with cells that asks for stars, the first guesses of
    [search] are the cells of a smallest unit of the board, each of them
    once: [initial_state] has sorted the units by size, and in the initial
    state no unit is filled and every cell is unknown. *)
Theorem search_first_guesses (S0 : Z) (picture : string) (board : Board.t) :
  make_board S0 picture = Return board →
  0 < Board.N board → Board.S board ≠ 0 →
  ∃ u, u ∈ Board.units board
       ∧ (∀ U, U ∈ Board.units board → (size u ≤ size U)%nat)
       ∧ candidates board (initial_state board) ≡ₚ elements u.
Proof.
  intros Hmake HN HS. pose proof (make_board_wf _ _ _ Hmake) as Hwf.
  pose proof (sorted_by_len_perm (Board.units board)) as Hperm.
  pose proof (sorted_by_len_sorted (Board.units board)) as Hsorted.
  unfold candidates, initial_state. simpl.
  destruct (sorted_by_len (Board.units board)) as [|u rest].
  { exfalso. destruct (wf_cover _ Hwf 0) as (U & HU & _);
      [apply cells_spec; nia|].
    rewrite <- Hperm in HU. by apply elem_of_nil in HU. }
  assert (u ∈ Board.units board) as Hu by (rewrite <- Hperm; left).
  exists u. split; [done|]. split.
  - intros U HU. rewrite <- Hperm in HU.
    apply StronglySorted_inv in Hsorted as [_ Hall].
    apply elem_of_cons in HU as [->|HU]; [done|].
    rewrite Forall_forall in Hall. by apply Hall.
  - simpl. rewrite intersection_empty_r_L, size_empty.
    rewrite decide_False by lia. rewrite set_iter_perm.
    pose proof (make_board_units_cells _ _ _ u Hmake Hu) as Hsub.
    assert (u ∩ list_to_set (range (Board.N board ^ 2)) = u) as ->; [|done].
    unfold cells in Hsub. rewrite Z.pow_2_r. clear -Hsub. set_solver.
Qed.

(** ** Repeating a call *)

(** X18.  A call that has succeeded changes nothing when it is made again:
    on the state that a successful [put_star] or [put_blank] of a cell
    leaves, the same call succeeds at once and returns that state, whatever
    the fuel. *)
Theorem propagation_idempotent (S0 : Z) (picture : string) (board : Board.t)
    (fuel fuel' : nat) (cell : Z) (st st' : State.t) :
  make_board S0 picture = Return board →
  (put_star fuel cell board st = (Success, st') →
   put_star fuel' cell board st' = (Success, st'))
  ∧ (put_blank fuel cell board st = (Success, st') →
     put_blank fuel' cell board st' = (Success, st')).
Proof.
  intros Hwf%make_board_wf. split.
  - intros Hin%(put_star_adds board Hwf).
    rewrite put_star_unfold. unfold put_star_with.
    by rewrite decide_True.
  - intros Hput.
    assert (cell ∉ State.unknowns st') as Hout.
    { revert Hput. rewrite put_blank_unfold. unfold put_blank_with.
      case_decide as Hunk; [|by intros [= <-]].
      destruct (Board.units_for board !! cell) as [us|]; [|done].
      intros (_ & _ & Hsub & _)%each_evolves.
      - simpl in Hsub. clear -Hsub. set_solver.
      - intros U st0. cbv beta zeta.
        pose proof (@PreOrder_Reflexive _ _ evolves_preorder) as Hrefl.
        case_decide; [apply Hrefl|]. case_decide; [|apply Hrefl].
        destruct (each _ (set_iter _) st0) as [o st1] eqn:Heach.
        apply each_evolves in Heach; [done|].
        destruct fuel; [apply no_fuel_evolves|apply put_evolves]. }
    rewrite put_blank_unfold. unfold put_blank_with.
    by rewrite decide_False.
Qed.

End MoreProperties.

(** ** The properties on the example boards *)

(** A valid placement of the 5×5 board: the first one [search] yields. *)
Definition placement5x5 : gset Z := list_to_set [1; 9; 12; 15; 23].

Lemma placement5x5_valid : valid_placement board5x5 placement5x5.
Proof. split; [compute_done|vm_compute; reflexivity]. Qed.

Lemma placement8x8_valid : valid_placement board8x8 placement8x8.
Proof. split; [compute_done|vm_compute; reflexivity]. Qed.

Lemma board_no_star_made :
  @make_board ascending_order 0 "a" = Return board_no_star.
Proof. apply make_board_returns. vm_compute. reflexivity. Qed.

(** X3 on the 5×5 board: the units of cell 12. *)
Lemma make_board_units_for_witness :
  (0 ≤ 12 < Board.N board5x5 * Board.N board5x5 →
   ∃ ch, Board.pic board5x5 !! Z.to_nat 12 = Some ch
         ∧ Board.units_for board5x5 !! 12
           = Some [column_cells (Board.N board5x5) (12 mod Board.N board5x5);
                   row_cells (Board.N board5x5) (12 / Board.N board5x5);
                   indexes (Board.pic board5x5) ch])
  ∧ (¬ 0 ≤ 12 < Board.N board5x5 * Board.N board5x5 →
     Board.units_for board5x5 !! 12 = None).
Proof.
  apply (@make_board_units_for ascending_order 1 board5x5_picture board5x5 12).
  apply board5x5_made.
Defined.

(** X4 on the 5×5 board. *)
Lemma make_board_units_witness :
  let N := Board.N board5x5 in
  let pic := Board.pic board5x5 in
  pic = without_whitespace board5x5_picture
  ∧ Z.of_nat (length pic) = N * N
  ∧ Board.S board5x5 = 1
  ∧ Board.units board5x5
    = (column_cells N <$> range N) ++ (row_cells N <$> range N)
      ++ (indexes pic <$> @str_set_iter ascending_order pic)
  ∧ length (Board.units board5x5)
    = (2 * Z.to_nat N + length (remove_dups pic))%nat
  ∧ (∀ i, 0 ≤ i < N →
       size (column_cells N i) = Z.to_nat N ∧ size (row_cells N i) = Z.to_nat N)
  ∧ (∀ ch, ch ∈ pic → indexes pic ch ≠ ∅ ∧ indexes pic ch ⊆ cells board5x5)
  ∧ (∀ ch1 ch2, ch1 ≠ ch2 → indexes pic ch1 ## indexes pic ch2).
Proof.
  apply (@make_board_units ascending_order 1 board5x5_picture board5x5).
  apply board5x5_made.
Defined.

(** X7 on the 5×5 board: cell 12 and the initial state. *)
Lemma propagation_exceptions_witness :
  let st := initial_state board5x5 in
  (∀ e, (@put_blank ascending_order 25 12 board5x5 st).1 ≠ Raised e)
  ∧ (12 ∈ State.stars st ∪ State.unknowns st →
     ∀ e, (@put_star ascending_order 25 12 board5x5 st).1 ≠ Raised e)
  ∧ ((12 ∉ State.stars st ∪ State.unknowns st) →
     @put_star ascending_order 25 12 board5x5 st = (Raised KeyError, st))
  ∧ state_wf board5x5 (@put_star ascending_order 25 12 board5x5 st).2
  ∧ state_wf board5x5 (@put_blank ascending_order 25 12 board5x5 st).2.
Proof.
  apply (@propagation_exceptions ascending_order 1 board5x5_picture board5x5
           25 12 (initial_state board5x5)).
  - apply board5x5_made.
  - apply si_wf, initial_state_inv.
Defined.

(** X8 on the 5×5 board: a star in cell 12 of the initial state. *)
Lemma put_star_success_witness :
  let st := initial_state board5x5 in
  let st' := (@put_star ascending_order 25 12 board5x5 st).2 in
  12 ∈ State.unknowns st
  ∧ 12 ∈ State.stars st'
  ∧ (12 ∉ State.unknowns st')
  ∧ (∀ c n, c ∈ State.stars st' → c ∉ State.stars st →
            n ∈ neighbors c (Board.N board5x5) →
            (n ∉ State.stars st') ∧ (n ∉ State.unknowns st'))
  ∧ (∀ U c, U ∈ Board.units board5x5 → c ∈ U →
            c ∈ State.stars st' → c ∉ State.stars st →
            count_stars U st' ≤ Board.S board5x5).
Proof.
  apply (@put_star_success ascending_order 1 board5x5_picture board5x5 25 12
           (initial_state board5x5)).
  - apply board5x5_made.
  - vm_compute. reflexivity.
  - simpl. set_solver.
Defined.

(** X9 on the 5×5 board: a blank in cell 0 of the initial state. *)
Lemma put_blank_success_witness :
  let st := initial_state board5x5 in
  let st' := (@put_blank ascending_order 25 0 board5x5 st).2 in
  ((0 ∉ State.stars st) → (0 ∉ State.stars st') ∧ (0 ∉ State.unknowns st'))
  ∧ (0 ∈ State.unknowns st →
     ∀ U, U ∈ Board.units board5x5 → 0 ∈ U → Board.S board5x5 ≤ slack U st')
  ∧ (∀ U, U ∈ Board.units board5x5 → slack U st' ≠ slack U st →
          Board.S board5x5 ≤ slack U st').
Proof.
  apply (@put_blank_success ascending_order 1 board5x5_picture board5x5 25 0
           (initial_state board5x5)).
  - apply board5x5_made.
  - vm_compute. reflexivity.
Defined.

(** X10 on the 5×5 board: cell 12, the initial state and the first
    placement. *)
Lemma propagation_keeps_placements_witness :
  let st := initial_state board5x5 in
  (12 ∈ placement5x5 →
   ∃ st', @put_star ascending_order 25 12 board5x5 st = (Success, st')
          ∧ consistent placement5x5 st' ∧ state_wf board5x5 st')
  ∧ (12 ∉ placement5x5 →
     ∃ st', @put_blank ascending_order 25 12 board5x5 st = (Success, st')
            ∧ consistent placement5x5 st' ∧ state_wf board5x5 st').
Proof.
  apply (@propagation_keeps_placements ascending_order 1 board5x5_picture
           board5x5 25 12 (initial_state board5x5) placement5x5).
  - apply board5x5_made.
  - apply placement5x5_valid.
  - apply (initial_state_agrees board5x5 placement5x5 placement5x5_valid).
  - apply si_wf, initial_state_inv.
  - rewrite initial_state_size. vm_compute. lia.
Defined.

(** X11 on the 5×5 board, which asks for one star per unit. *)
Lemma search_one_star_witness :
  let yields :=
    (@search ascending_order 25 board5x5 (initial_state board5x5)).1 in
  NoDup (State.stars <$> yields)
  ∧ ((Z.to_nat (Board.N board5x5 * Board.N board5x5) ≤ 25)%nat →
     (∀ X, valid_placement board5x5 X ↔ X ∈ State.stars <$> yields)
     ∧ (length yields = 1%nat ↔
        ∃ X, valid_placement board5x5 X
             ∧ ∀ X', valid_placement board5x5 X' → X' = X)).
Proof.
  apply (@search_one_star ascending_order 1 board5x5_picture board5x5 25).
  - apply board5x5_made.
  - vm_compute. reflexivity.
Defined.

(** X12 on the 8×8 board, which asks for two stars per unit. *)
Lemma search_repeats_witness :
  Board.S board8x8
  ≤ Z.of_nat (length (filter (λ y, State.stars y = placement8x8)
       (@search ascending_order 64 board8x8 (initial_state board8x8)).1)).
Proof.
  apply (@search_repeats ascending_order 2 board8x8_picture board8x8 64
           placement8x8).
  - apply board8x8_made.
  - vm_compute. reflexivity.
  - vm_compute. lia.
  - apply placement8x8_valid.
Defined.

(** X13 on the 5×5 board and its first placement. *)
Lemma is_solution_rules_witness :
  let N := Board.N board5x5 in
  (∀ e, is_solution board5x5 placement5x5 = Raise e →
        e = ZeroDivisionError ∧ N = 0 ∧ placement5x5 ≠ ∅)
  ∧ (N = 0 → placement5x5 ≠ ∅ →
     is_solution board5x5 placement5x5 = Raise ZeroDivisionError)
  ∧ (is_solution board5x5 placement5x5 ≠ OutOfFuel)
  ∧ (placement5x5 ⊆ cells board5x5 →
     ∃ b, is_solution board5x5 placement5x5 = Return b
          ∧ (b = true ↔
             (∀ U, U ∈ Board.units board5x5 →
                   Z.of_nat (size (placement5x5 ∩ U)) = Board.S board5x5)
             ∧ (∀ c1 c2, c1 ∈ placement5x5 → c2 ∈ placement5x5 → c1 ≠ c2 →
                  ¬ (-1 ≤ c1 / N - c2 / N ≤ 1
                     ∧ -1 ≤ c1 mod N - c2 mod N ≤ 1)))).
Proof.
  apply (@is_solution_rules ascending_order 1 board5x5_picture board5x5
           placement5x5).
  apply board5x5_made.
Defined.

(** X14 on the 5×5 board and its first placement. *)
Lemma print_board_lines_witness :
  let N := Board.N board5x5 in
  ∃ lines,
    print_board board5x5 placement5x5
    = (lines ++ [list_ascii_of_string "Valid solution"], Return ())
    ∧ Z.of_nat (length lines) = N
    ∧ ∀ i j, 0 ≤ i < N → 0 ≤ j < N →
        ∃ line ch,
          lines !! Z.to_nat i = Some line
          ∧ Board.pic board5x5 !! Z.to_nat (N * i + j) = Some ch
          ∧ Z.of_nat (length line) = 5 * N
          ∧ line !! Z.to_nat (2 * j) = Some ch
          ∧ line !! Z.to_nat (3 * N + 1 + 2 * j)
            = Some (if decide (N * i + j ∈ placement5x5)
                    then "*"%char else ch).
Proof.
  apply (@print_board_lines ascending_order 1 board5x5_picture board5x5
           placement5x5 true).
  - apply board5x5_made.
  - vm_compute. reflexivity.
Defined.

(** X15 on the 5×5 board. *)
Lemma solve_output_valid_witness :
  (@solve_output ascending_order 25 board5x5).2
  = @solve ascending_order 25 board5x5
  ∧ (∀ X, @solve ascending_order 25 board5x5 = Return X →
       valid_placement board5x5 X
       ∧ ∃ lines,
           (@solve_output ascending_order 25 board5x5).1
           = lines ++ [list_ascii_of_string "Valid solution"]
           ∧ length lines = Z.to_nat (Board.N board5x5))
  ∧ ((∀ X, @solve ascending_order 25 board5x5 ≠ Return X) →
     (@solve_output ascending_order 25 board5x5).1 = [])
  ∧ ((Z.to_nat (Board.N board5x5 * Board.N board5x5) ≤ 25)%nat →
     (∃ X, valid_placement board5x5 X) →
     ∃ X, @solve ascending_order 25 board5x5 = Return X).
Proof.
  apply (@solve_output_valid ascending_order 1 board5x5_picture board5x5 25).
  apply board5x5_made.
Defined.

(** X16 on the board of one cell that asks for no star. *)
Lemma solve_degenerate_witness :
  (Board.S board_no_star = 0 ∨ Board.N board_no_star = 0 →
   @search ascending_order 0 board_no_star (initial_state board_no_star)
   = ([State.mk [] ∅ (cells board_no_star)], Return ())
   ∧ @solve ascending_order 0 board_no_star = Return ∅)
  ∧ (0 < Board.N board_no_star →
     Board.S board_no_star < 0 ∨ Board.N board_no_star < Board.S board_no_star →
     (Z.to_nat (Board.N board_no_star * Board.N board_no_star) ≤ 0)%nat →
     @search ascending_order 0 board_no_star (initial_state board_no_star)
     = ([], Return ())
     ∧ @solve ascending_order 0 board_no_star = Raise StopIteration).
Proof.
  apply (@solve_degenerate ascending_order 0 "a" board_no_star 0).
  apply board_no_star_made.
Defined.

(** X17 on the 5×5 board. *)
Lemma search_first_guesses_witness :
  ∃ u, u ∈ Board.units board5x5
       ∧ (∀ U, U ∈ Board.units board5x5 → (size u ≤ size U)%nat)
       ∧ @candidates ascending_order board5x5 (initial_state board5x5)
         ≡ₚ elements u.
Proof.
  apply (@search_first_guesses ascending_order 1 board5x5_picture board5x5).
  - apply board5x5_made.
  - vm_compute. reflexivity.
  - vm_compute. discriminate.
Defined.

(** X18 on the 5×5 board: cell 12, and the state that a star in cell 12
    leaves of the initial state. *)
Lemma propagation_idempotent_witness :
  let st := initial_state board5x5 in
  let st' := (@put_star ascending_order 25 12 board5x5 st).2 in
  (@put_star ascending_order 25 12 board5x5 st = (Success, st') →
   @put_star ascending_order 0 12 board5x5 st' = (Success, st'))
  ∧ (@put_blank ascending_order 25 12 board5x5 st = (Success, st') →
     @put_blank ascending_order 0 12 board5x5 st' = (Success, st')).
Proof.
  apply (@propagation_idempotent ascending_order 1 board5x5_picture board5x5
           25 0 12 (initial_state board5x5)).
  apply board5x5_made.
Defined.
